(** * CryptoManager (crypto.js): key derivation, envelope encryption,
      key validation and the note codec

    A shallow embedding of [class CryptoManager] of crypto.js.

    - JavaScript strings are sequences of UTF-16 code units ([jsstring]);
      typed arrays of bytes are [list byte].
    - The pure platform functions the class calls (TextEncoder, TextDecoder,
      btoa, atob, String.prototype.match, parseInt, Number.prototype.toString)
      are written out following ECMAScript and the WHATWG Encoding and HTML
      standards.
    - PBKDF2 and AES-GCM of [crypto.subtle] stay abstract ([WebCrypto]),
      but for the length of a ciphertext: the data and 16 bytes of tag.
      What else is assumed of them is a class of its own ([AeadCorrect],
      [AeadKeyBinding]) and appears in the statements that need it.
    - [Function.prototype.apply] throws a RangeError on an array with more
      elements than the engine passes as arguments; that number is a
      parameter ([Engine]), of which only a lower bound of 47 is assumed.
    - [localStorage] is a finite map from strings to strings without a
      quota; [crypto.getRandomValues] reads an explicit entropy tape.
    - Exceptions are the [Throw] results of a state-and-error monad;
      [await] is sequential composition and [console.error] is not
      recorded. *)

From Stdlib Require Import NArith ZArith List Lia Bool.
From Stdlib Require Import Strings.Byte Strings.Ascii Strings.String.
From stdpp Require Import gmap.

Import ListNotations.
Local Open Scope N_scope.

(** [lia] on goals with division and remainder by constants. *)
Ltac Zify.zify_post_hook ::= Z.to_euclidean_division_equations.

(** ** JavaScript values *)

(** A string is a sequence of UTF-16 code units, a Uint8Array a list of bytes. *)
Abbreviation jsstring := (list N).
Abbreviation Uint8Array := (list byte).

(** An ASCII literal of the source as a [jsstring]. *)
Definition js (s : string) : jsstring :=
  map N_of_ascii (list_ascii_of_string s).

(** [!s] on a string that may be [null]: only [null] and [''] are falsy. *)
Definition truthy (v : option jsstring) : bool :=
  match v with
  | Some (_ :: _) => true
  | _ => false
  end.

(** ToUint8 of a non-negative integer: the value modulo 2^8. *)
Definition ToUint8 (n : N) : byte :=
  match Byte.of_N (n mod 256) with
  | Some b => b
  | None => x00
  end.

(** ToUint8 of a Number that may be NaN ([None]) or negative. *)
Definition ToUint8_number (v : option Z) : byte :=
  match v with
  | None => x00
  | Some z => ToUint8 (Z.to_N (z mod 256)%Z)
  end.

(** ** Hexadecimal salt strings *)

(** One digit of [Number.prototype.toString(16)]: lower case. *)
Definition hexDigit (d : N) : N :=
  if d <? 10 then 48 + d else 87 + d.

(** [b.toString(16)] for a byte: no leading zero. *)
Definition toString16 (b : byte) : jsstring :=
  let n := Byte.to_N b in
  if n <? 16 then [hexDigit n] else [hexDigit (n / 16); hexDigit (n mod 16)].

(** [s.padStart(2, '0')]. *)
Definition padStart2 (s : jsstring) : jsstring :=
  repeat 48 (2 - length s)%nat ++ s.

(** [Array.from(saltArray).map(b => b.toString(16).padStart(2, '0')).join('')] *)
Definition saltToHex (saltArray : Uint8Array) : jsstring :=
  concat (map (fun b => padStart2 (toString16 b)) saltArray).

(** Line terminators: the code units [.] does not match. *)
Definition isLineTerminator (c : N) : bool :=
  (c =? 10) || (c =? 13) || (c =? 8232) || (c =? 8233).

(** The matches of the global regular expression [/.{1,2}/g], left to right:
    two code units where two are available, one otherwise; a line terminator
    is skipped. *)
Fixpoint matchPairs (s : jsstring) : list jsstring :=
  match s with
  | [] => []
  | c :: rest =>
      if isLineTerminator c then matchPairs rest
      else match rest with
           | [] => [[c]]
           | d :: rest' =>
               if isLineTerminator d then [c] :: matchPairs rest
               else [c; d] :: matchPairs rest'
           end
  end.

(** [salt.match(/.{1,2}/g)]: [null] when nothing matches. *)
Definition match_1_2 (s : jsstring) : option (list jsstring) :=
  match matchPairs s with
  | [] => None
  | l => Some l
  end.

(** White space and line terminators, stripped by [parseInt]. *)
Definition isStrWhiteSpaceChar (c : N) : bool :=
  (c =? 9) || (c =? 10) || (c =? 11) || (c =? 12) || (c =? 13) || (c =? 32)
  || (c =? 160) || (c =? 5760) || ((8192 <=? c) && (c <=? 8202))
  || (c =? 8232) || (c =? 8233) || (c =? 8239) || (c =? 8287)
  || (c =? 12288) || (c =? 65279).

Fixpoint trimStart (s : jsstring) : jsstring :=
  match s with
  | c :: rest => if isStrWhiteSpaceChar c then trimStart rest else s
  | [] => []
  end.

(** The value of a radix-16 digit. *)
Definition hexValue (c : N) : option N :=
  if (48 <=? c) && (c <=? 57) then Some (c - 48)
  else if (97 <=? c) && (c <=? 102) then Some (c - 87)
  else if (65 <=? c) && (c <=? 70) then Some (c - 55)
  else None.

(** The value of the longest prefix of radix-16 digits; [None] when the
    prefix is empty. *)
Fixpoint hexPrefix (acc : N) (seen : bool) (s : jsstring) : option N :=
  match s with
  | c :: rest =>
      match hexValue c with
      | Some d => hexPrefix (acc * 16 + d) true rest
      | None => if seen then Some acc else None
      end
  | [] => if seen then Some acc else None
  end.

(** [parseInt(s, 16)]: [None] is NaN. The value is exact; the source
    applies it to strings of one or two code units. *)
Definition parseInt16 (s : jsstring) : option Z :=
  let S1 := trimStart s in
  let '(sign, S2) :=
    match S1 with
    | 45 :: r => ((-1)%Z, r)
    | 43 :: r => (1%Z, r)
    | _ => (1%Z, S1)
    end in
  let S3 :=
    match S2 with
    | 48 :: 120 :: r => r
    | 48 :: 88 :: r => r
    | _ => S2
    end in
  match hexPrefix 0 false S3 with
  | Some n => Some (sign * Z.of_N n)%Z
  | None => None
  end.

(** [new Uint8Array(salt.match(/.{1,2}/g).map(byte => parseInt(byte, 16)))];
    [None] when [match] returns [null] and [.map] throws a TypeError. *)
Definition saltFromHex (salt : jsstring) : option Uint8Array :=
  match match_1_2 salt with
  | None => None
  | Some l => Some (map (fun byte => ToUint8_number (parseInt16 byte)) l)
  end.


(** ** TextEncoder and TextDecoder (UTF-8) *)

Definition isHighSurrogate (c : N) : bool := (55296 <=? c) && (c <=? 56319).
Definition isLowSurrogate (c : N) : bool := (56320 <=? c) && (c <=? 57343).

(** Conversion of a string to scalar values, as for a USVString argument:
    a surrogate pair is one code point, a lone surrogate becomes U+FFFD. *)
Fixpoint toCodePoints (s : jsstring) : list N :=
  match s with
  | [] => []
  | c :: rest =>
      if isHighSurrogate c then
        match rest with
        | d :: rest' =>
            if isLowSurrogate d
            then (65536 + (c - 55296) * 1024 + (d - 56320)) :: toCodePoints rest'
            else 65533 :: toCodePoints rest
        | [] => [65533]
        end
      else if isLowSurrogate c then 65533 :: toCodePoints rest
      else c :: toCodePoints rest
  end.

(** The UTF-8 bytes of one scalar value. *)
Definition utf8_encode_cp (c : N) : Uint8Array :=
  if c <? 128 then [ToUint8 c]
  else if c <? 2048 then [ToUint8 (192 + c / 64); ToUint8 (128 + c mod 64)]
  else if c <? 65536 then
    [ToUint8 (224 + c / 4096); ToUint8 (128 + (c / 64) mod 64);
     ToUint8 (128 + c mod 64)]
  else
    [ToUint8 (240 + c / 262144); ToUint8 (128 + (c / 4096) mod 64);
     ToUint8 (128 + (c / 64) mod 64); ToUint8 (128 + c mod 64)].

(** [new TextEncoder().encode(data)] *)
Definition TextEncoder_encode (data : jsstring) : Uint8Array :=
  concat (map utf8_encode_cp (toCodePoints data)).

Definition inRange (lo hi : N) (b : byte) : bool :=
  (lo <=? Byte.to_N b) && (Byte.to_N b <=? hi).

(** The payload bits of a continuation byte. *)
Definition contBits (b : byte) : N := Byte.to_N b - 128.

(** The UTF-8 decoder of the Encoding standard in replacement mode: an
    ill-formed sequence yields U+FFFD and decoding resumes at the byte that
    broke it. *)
Fixpoint utf8_decode (bs : Uint8Array) : list N :=
  match bs with
  | [] => []
  | b1 :: r1 =>
      let n1 := Byte.to_N b1 in
      if n1 <? 128 then n1 :: utf8_decode r1
      else if (194 <=? n1) && (n1 <=? 223) then
        match r1 with
        | [] => [65533]
        | b2 :: r2 =>
            if inRange 128 191 b2
            then ((n1 - 192) * 64 + contBits b2) :: utf8_decode r2
            else 65533 :: utf8_decode r1
        end
      else if (224 <=? n1) && (n1 <=? 239) then
        match r1 with
        | [] => [65533]
        | b2 :: r2 =>
            if inRange (if n1 =? 224 then 160 else 128)
                       (if n1 =? 237 then 159 else 191) b2
            then match r2 with
                 | [] => [65533]
                 | b3 :: r3 =>
                     if inRange 128 191 b3
                     then (((n1 - 224) * 64 + contBits b2) * 64 + contBits b3)
                          :: utf8_decode r3
                     else 65533 :: utf8_decode r2
                 end
            else 65533 :: utf8_decode r1
        end
      else if (240 <=? n1) && (n1 <=? 244) then
        match r1 with
        | [] => [65533]
        | b2 :: r2 =>
            if inRange (if n1 =? 240 then 144 else 128)
                       (if n1 =? 244 then 143 else 191) b2
            then match r2 with
                 | [] => [65533]
                 | b3 :: r3 =>
                     if inRange 128 191 b3
                     then match r3 with
                          | [] => [65533]
                          | b4 :: r4 =>
                              if inRange 128 191 b4
                              then ((((n1 - 240) * 64 + contBits b2) * 64
                                     + contBits b3) * 64 + contBits b4)
                                   :: utf8_decode r4
                              else 65533 :: utf8_decode r3
                          end
                     else 65533 :: utf8_decode r2
                 end
            else 65533 :: utf8_decode r1
        end
      else 65533 :: utf8_decode r1
  end.

(** A decoder created without [ignoreBOM] drops a leading U+FEFF. *)
Definition stripBOM (cps : list N) : list N :=
  match cps with
  | c :: rest => if c =? 65279 then rest else cps
  | [] => []
  end.

(** The UTF-16 code units of one code point. *)
Definition fromCodePoint (c : N) : jsstring :=
  if c <? 65536 then [c]
  else [55296 + (c - 65536) / 1024; 56320 + (c - 65536) mod 1024].

(** [new TextDecoder().decode(buffer)] *)
Definition TextDecoder_decode (buffer : Uint8Array) : jsstring :=
  concat (map fromCodePoint (stripBOM (utf8_decode buffer))).

(** A Unicode scalar value: a code point that is not a surrogate. *)
Definition isScalar (c : N) : bool :=
  (c <? 55296) || ((57344 <=? c) && (c <? 1114112)).

(** [s.isWellFormed()]: code units in range and no lone surrogate. *)
Fixpoint isWellFormed (s : jsstring) : bool :=
  match s with
  | [] => true
  | c :: rest =>
      if isHighSurrogate c then
        match rest with
        | d :: rest' => isLowSurrogate d && isWellFormed rest'
        | [] => false
        end
      else negb (isLowSurrogate c) && (c <? 65536) && isWellFormed rest
  end.

(** [s.startsWith('\uFEFF')] *)
Definition startsWithBOM (s : jsstring) : bool :=
  match s with
  | c :: _ => c =? 65279
  | [] => false
  end.

(** ** btoa and atob (base64) *)

(** Results of operations that may throw. *)
Inductive JsError : Type :=
  | TypeError                 (* a property read on [null] *)
  | InvalidCharacterError     (* btoa, atob *)
  | RangeError                (* Function.prototype.apply, too many arguments *)
  | OperationError            (* crypto.subtle.decrypt rejects *)
  | NotInitializedError       (* 'Crypto not initialized. Call initialize() first.' *)
  | EncryptFailedError        (* 'Failed to encrypt data' *)
  | DecryptFailedError.       (* 'Failed to decrypt data - invalid passphrase or corrupted data' *)

Inductive Result (A : Type) : Type :=
  | Ok (a : A)
  | Throw (e : JsError).
Arguments Ok {A} a.
Arguments Throw {A} e.

(** The base64 alphabet. *)
Definition b64char (v : N) : N :=
  if v <? 26 then 65 + v
  else if v <? 52 then 97 + (v - 26)
  else if v <? 62 then 48 + (v - 52)
  else if v =? 62 then 43
  else 47.

Definition b64val (c : N) : option N :=
  if (65 <=? c) && (c <=? 90) then Some (c - 65)
  else if (97 <=? c) && (c <=? 122) then Some (c - 97 + 26)
  else if (48 <=? c) && (c <=? 57) then Some (c - 48 + 52)
  else if c =? 43 then Some 62
  else if c =? 47 then Some 63
  else None.

(** The 6-bit groups of a sequence of octets, most significant bit first;
    the last group is filled up with zero bits. *)
Fixpoint octetSextets (l : list N) : list N :=
  match l with
  | [] => []
  | [a] => [a / 4; (a mod 4) * 16]
  | [a; b] => [a / 4; (a mod 4) * 16 + b / 16; (b mod 16) * 4]
  | a :: b :: c :: rest =>
      a / 4 :: (a mod 4) * 16 + b / 16 :: (b mod 16) * 4 + c / 64 :: c mod 64
      :: octetSextets rest
  end.

(** The [=] signs that fill the output up to a multiple of four. *)
Definition padding (n : nat) : jsstring :=
  let r := N.of_nat n mod 3 in
  if r =? 1 then [61; 61] else if r =? 2 then [61] else [].

Definition encodeOctets (l : list N) : jsstring :=
  map b64char (octetSextets l) ++ padding (length l).

(** [btoa(s)]: throws when a code unit is above U+00FF. *)
Definition btoa (s : jsstring) : Result jsstring :=
  if forallb (fun c => c <=? 255) s then Ok (encodeOctets s)
  else Throw InvalidCharacterError.

Definition isAsciiWhitespace (c : N) : bool :=
  (c =? 9) || (c =? 10) || (c =? 12) || (c =? 13) || (c =? 32).

(** Removes one or two trailing [=] of a string whose length is a multiple
    of four (forgiving-base64 decode, step 2). *)
Definition stripPadding (s : jsstring) : jsstring :=
  if N.of_nat (length s) mod 4 =? 0 then
    match rev s with
    | c1 :: c2 :: r =>
        if c1 =? 61 then (if c2 =? 61 then rev r else rev (c2 :: r)) else s
    | _ => s
    end
  else s.

(** The value of every character, or [None] when one is not in the
    alphabet. *)
Fixpoint sextets (s : jsstring) : option (list N) :=
  match s with
  | [] => Some []
  | c :: rest =>
      match b64val c, sextets rest with
      | Some v, Some vs => Some (v :: vs)
      | _, _ => None
      end
  end.

(** Four sextets make three octets; of two or three left over the last
    four or two bits are discarded. *)
Fixpoint decodeSextets (l : list N) : list N :=
  match l with
  | a :: b :: c :: d :: rest =>
      a * 4 + b / 16 :: (b mod 16) * 16 + c / 4 :: (c mod 4) * 64 + d
      :: decodeSextets rest
  | [a; b; c] => [a * 4 + b / 16; (b mod 16) * 16 + c / 4]
  | [a; b] => [a * 4 + b / 16]
  | _ => []
  end.

(** [atob(s)], the forgiving-base64 decode: throws on a character outside
    the alphabet and on a length that leaves a single character over. *)
Definition atob (s : jsstring) : Result jsstring :=
  let data := stripPadding (List.filter (fun c => negb (isAsciiWhitespace c)) s) in
  if N.of_nat (length data) mod 4 =? 1 then Throw InvalidCharacterError
  else match sextets data with
       | None => Throw InvalidCharacterError
       | Some vs => Ok (decodeSextets vs)
       end.

(** [String.fromCharCode(c1, ..., cn)] on byte values. *)
Definition fromCharCode (combined : Uint8Array) : jsstring :=
  map Byte.to_N combined.

(** [f.apply(thisArg, array)] passes the elements of the array as the
    arguments of the call. An engine passes only so many arguments and
    throws a RangeError beyond: 65536 in JavaScriptCore, some hundred
    thousand in V8 and SpiderMonkey. The limit is a parameter of the
    model; all that is assumed of it is that it admits the 47 bytes of a
    sealed validation constant (12 of nonce, 19 of text, 16 of tag). *)
Class Engine : Type := {
  maxArguments : N;
  maxArguments_min : 47 <= maxArguments
}.

(** [String.fromCharCode.apply(null, combined)] *)
Definition fromCharCode_apply {Eng : Engine} (combined : Uint8Array)
  : Result jsstring :=
  if N.of_nat (length combined) <=? maxArguments
  then Ok (fromCharCode combined)
  else Throw RangeError.

(** [new Uint8Array(s.split('').map(char => char.charCodeAt(0)))] *)
Definition charCodes (s : jsstring) : Uint8Array :=
  map ToUint8 s.

(** ** crypto.subtle *)

(** A CryptoKey is opaque in JavaScript; here it is the key material. *)
Abbreviation CryptoKey := (list byte).

(** The primitives of the Web Crypto API the class relies on:
    PBKDF2 with HMAC-SHA-256 (password, salt, iterations, length in bits),
    and AES-GCM with a 128-bit tag (key, iv, data); decryption returns
    [None] when the promise rejects. The result of an encryption is the
    ciphertext, as long as the data, followed by the 16 bytes of the tag. *)
Class WebCrypto : Type := {
  PBKDF2_SHA256 : Uint8Array -> Uint8Array -> N -> N -> CryptoKey;
  AES_GCM_encrypt : CryptoKey -> Uint8Array -> Uint8Array -> Uint8Array;
  AES_GCM_decrypt : CryptoKey -> Uint8Array -> Uint8Array -> option Uint8Array;
  AES_GCM_encrypt_length : forall k iv data,
    length (AES_GCM_encrypt k iv data) = (length data + 16)%nat
}.

(** Decrypting under the key and iv of the encryption returns the data. *)
Class AeadCorrect (W : WebCrypto) : Prop :=
  aead_correct : forall k iv p,
    AES_GCM_decrypt k iv (AES_GCM_encrypt k iv p) = Some p.


(** ** State: the manager object, localStorage and the random source *)

Record World : Type := {
  localStorage : gmap jsstring jsstring;
  entropy : nat -> byte
}.

(** The fields of a [CryptoManager] that change: [this.key], [this.userId]. *)
Record CryptoManager : Type := {
  key : option CryptoKey;
  userId : option jsstring
}.

(** [constructor()] *)
Definition constructor : CryptoManager := {| key := None; userId := None |}.
Definition algorithm : jsstring := js "AES-GCM".
Definition keyLength : N := 256.

Definition State : Type := (CryptoManager * World)%type.

(** A computation reads and writes the state and returns or throws; the
    effects made before a throw stay. *)
Definition M (A : Type) : Type := State -> Result A * State.

Definition ret {A} (a : A) : M A := fun s => (Ok a, s).
Definition throw {A} (e : JsError) : M A := fun s => (Throw e, s).
Definition bind {A B} (m : M A) (f : A -> M B) : M B :=
  fun s => match m s with
           | (Ok a, s') => f a s'
           | (Throw e, s') => (Throw e, s')
           end.
(** [try { m } catch (error) { handler }] *)
Definition try_catch {A} (m : M A) (handler : JsError -> M A) : M A :=
  fun s => match m s with
           | (Ok a, s') => (Ok a, s')
           | (Throw e, s') => handler e s'
           end.

Declare Scope js_scope.
Delimit Scope js_scope with js.
Notation "x <- m ;; k" := (bind m (fun x => k))
  (at level 100, m at next level, right associativity) : js_scope.
Notation "m ;;; k" := (bind m (fun _ => k))
  (at level 100, right associativity) : js_scope.
Local Open Scope js_scope.

Fixpoint mapM {A B} (f : A -> M B) (l : list A) : M (list B) :=
  match l with
  | [] => ret []
  | a :: l' => b <- f a ;; bs <- mapM f l' ;; ret (b :: bs)
  end.

(** The world after writing or removing an item of localStorage. *)
Definition store (k v : jsstring) (w : World) : World :=
  {| localStorage := <[k := v]> (localStorage w); entropy := entropy w |}.
Definition unstore (k : jsstring) (w : World) : World :=
  {| localStorage := delete k (localStorage w); entropy := entropy w |}.

(** The next [n] random bytes, and the world after they were drawn. *)
Definition draw (n : nat) (w : World) : Uint8Array :=
  map (entropy w) (seq 0 n).
Definition advance (n : nat) (w : World) : World :=
  {| localStorage := localStorage w;
     entropy := fun i => entropy w (n + i)%nat |}.

(** [localStorage.getItem(k)], [.setItem(k, v)], [.removeItem(k)] *)
Definition getItem (k : jsstring) : M (option jsstring) :=
  fun s => (Ok (localStorage (snd s) !! k), s).
Definition setItem (k v : jsstring) : M unit :=
  fun s => (Ok tt, (fst s, store k v (snd s))).
Definition removeItem (k : jsstring) : M unit :=
  fun s => (Ok tt, (fst s, unstore k (snd s))).

(** [crypto.getRandomValues(new Uint8Array(n))] *)
Definition getRandomValues (n : nat) : M Uint8Array :=
  fun s => (Ok (draw n (snd s)), (fst s, advance n (snd s))).

(** Reads and writes of [this.key] and [this.userId]. *)
Definition get_key : M (option CryptoKey) := fun s => (Ok (key (fst s)), s).
Definition set_key (k : option CryptoKey) : M unit :=
  fun s => (Ok tt, ({| key := k; userId := userId (fst s) |}, snd s)).
Definition set_userId (u : jsstring) : M unit :=
  fun s => (Ok tt, ({| key := key (fst s); userId := Some u |}, snd s)).

(** A manager that holds key [k] for user [u]. *)
Definition unlocked (k : CryptoKey) (u : jsstring) : CryptoManager :=
  {| key := Some k; userId := Some u |}.

(** ** The methods of CryptoManager *)

Section Methods.
Context {W : WebCrypto} {Eng : Engine}.

(** [async deriveKey(passphrase, salt)] *)
Definition deriveKey (passphrase : jsstring) (salt : Uint8Array) : M CryptoKey :=
  ret (PBKDF2_SHA256 (TextEncoder_encode passphrase) salt 100000 keyLength).

(** [async encrypt(data)] *)
Definition encrypt (data : jsstring) : M jsstring :=
  k <- get_key ;;
  match k with
  | None => throw NotInitializedError
  | Some k =>
      try_catch
        (let dataBuffer := TextEncoder_encode data in
         iv <- getRandomValues 12 ;;
         let encrypted := AES_GCM_encrypt k iv dataBuffer in
         let combined := iv ++ encrypted in
         match fromCharCode_apply combined with
         | Throw e => throw e
         | Ok chars =>
             match btoa chars with
             | Ok s => ret s
             | Throw e => throw e
             end
         end)
        (fun _ => throw EncryptFailedError)
  end.

(** [async decrypt(encryptedData)] *)
Definition decrypt (encryptedData : jsstring) : M jsstring :=
  k <- get_key ;;
  match k with
  | None => throw NotInitializedError
  | Some k =>
      try_catch
        (match atob encryptedData with
         | Throw e => throw e
         | Ok bin =>
             let combined := charCodes bin in
             let iv := firstn 12 combined in
             let encrypted := skipn 12 combined in
             match AES_GCM_decrypt k iv encrypted with
             | None => throw OperationError
             | Some decrypted => ret (TextDecoder_decode decrypted)
             end
         end)
        (fun _ => throw DecryptFailedError)
  end.

Definition testMessage : jsstring := js "key_validation_test".
Definition saltKeyOf (u : jsstring) : jsstring := js "app_salt_" ++ u.
Definition testKeyOf (u : jsstring) : jsstring := js "key_test_" ++ u.
Definition vaultKeyOf (u : jsstring) : jsstring := js "user_vault_" ++ u.

Definition jsstring_eqb (a b : jsstring) : bool := bool_decide (a = b).

(** [async initialize(passphrase, userId)] *)
Definition initialize (passphrase userId : jsstring) : M bool :=
  try_catch
    (let saltKey := saltKeyOf userId in
     stored <- getItem saltKey ;;
     salt <- match stored with
             | Some (c :: s') => ret (c :: s')
             | _ =>
                 saltArray <- getRandomValues 16 ;;
                 let salt := saltToHex saltArray in
                 setItem saltKey salt ;;;
                 ret salt
             end ;;
     saltArray <- match saltFromHex salt with
                  | Some a => ret a
                  | None => throw TypeError
                  end ;;
     k <- deriveKey passphrase saltArray ;;
     set_key (Some k) ;;;
     set_userId userId ;;;
     let testKey := testKeyOf userId in
     testData <- getItem testKey ;;
     match testData with
     | Some (c :: t') =>
         try_catch
           (decrypted <- decrypt (c :: t') ;;
            ret (jsstring_eqb decrypted testMessage))
           (fun _ => ret false)
     | _ =>
         encrypted <- encrypt testMessage ;;
         setItem testKey encrypted ;;;
         ret true
     end)
    (fun _ => ret false).

(** [initialize(passphrase)] with the default [userId = 'default']. *)
Definition initialize_default (passphrase : jsstring) : M bool :=
  initialize passphrase (js "default").

(** [async createUserVault(passphrase, userId)] *)
Definition createUserVault (passphrase userId : jsstring) : M bool :=
  try_catch
    (let vaultKey := vaultKeyOf userId in
     let saltKey := saltKeyOf userId in
     let testKey := testKeyOf userId in
     removeItem vaultKey ;;;
     removeItem saltKey ;;;
     removeItem testKey ;;;
     saltArray <- getRandomValues 16 ;;
     let salt := saltToHex saltArray in
     setItem saltKey salt ;;;
     success <- initialize passphrase userId ;;
     (if success
      then setItem vaultKey (js "true") ;;; setItem (js "current_user") userId
      else ret tt) ;;;
     ret success)
    (fun _ => ret false).

(** [async validateKey(userId)] *)
Definition validateKey (userId : jsstring) : M bool :=
  try_catch
    (let testKey := testKeyOf userId in
     stored <- getItem testKey ;;
     testData <- match stored with
                 | Some (c :: t') => ret (c :: t')
                 | _ =>
                     encrypted <- encrypt testMessage ;;
                     setItem testKey encrypted ;;;
                     ret encrypted
                 end ;;
     try_catch
       (decrypted <- decrypt testData ;;
        ret (jsstring_eqb decrypted testMessage))
       (fun _ => ret false))
    (fun _ => ret false).

(** [clear()] *)
Definition clear : M unit := set_key None.

(** [isInitialized()] *)
Definition isInitialized : M bool :=
  k <- get_key ;;
  ret (match k with Some _ => true | None => false end).

End Methods.

(** ** Notes *)

(** A note object. [title], [content], [tags] and [encrypted] may be
    absent; the other fields are only copied. *)
Record Note : Type := {
  id : jsstring;
  title : option jsstring;
  content : option jsstring;
  tags : option (list jsstring);
  pinned : bool;
  archived : bool;
  createdAt : jsstring;
  updatedAt : jsstring;
  encrypted : option bool
}.

Definition with_title (n : Note) (v : jsstring) : Note :=
  {| id := id n; title := Some v; content := content n; tags := tags n;
     pinned := pinned n; archived := archived n; createdAt := createdAt n;
     updatedAt := updatedAt n; encrypted := encrypted n |}.
Definition with_content (n : Note) (v : jsstring) : Note :=
  {| id := id n; title := title n; content := Some v; tags := tags n;
     pinned := pinned n; archived := archived n; createdAt := createdAt n;
     updatedAt := updatedAt n; encrypted := encrypted n |}.
Definition with_tags (n : Note) (v : list jsstring) : Note :=
  {| id := id n; title := title n; content := content n; tags := Some v;
     pinned := pinned n; archived := archived n; createdAt := createdAt n;
     updatedAt := updatedAt n; encrypted := encrypted n |}.
Definition with_encrypted (n : Note) (v : bool) : Note :=
  {| id := id n; title := title n; content := content n; tags := tags n;
     pinned := pinned n; archived := archived n; createdAt := createdAt n;
     updatedAt := updatedAt n; encrypted := Some v |}.

Section NoteCodec.
Context {W : WebCrypto} {Eng : Engine}.

(** [async encryptNote(note)] *)
Definition encryptNote (note : Note) : M Note :=
  let encryptedNote := note in
  encryptedNote <- match title note with
                   | Some (c :: t) =>
                       e <- encrypt (c :: t) ;; ret (with_title encryptedNote e)
                   | _ => ret encryptedNote
                   end ;;
  encryptedNote <- match content note with
                   | Some (c :: t) =>
                       e <- encrypt (c :: t) ;; ret (with_content encryptedNote e)
                   | _ => ret encryptedNote
                   end ;;
  encryptedNote <- match tags note with
                   | Some (t :: ts) =>
                       es <- mapM encrypt (t :: ts) ;;
                       ret (with_tags encryptedNote es)
                   | _ => ret encryptedNote
                   end ;;
  ret (with_encrypted encryptedNote true).

(** [async decryptNote(encryptedNote)] *)
Definition decryptNote (encryptedNote : Note) : M Note :=
  match encrypted encryptedNote with
  | Some true =>
      let note := encryptedNote in
      note <- match title encryptedNote with
              | Some (c :: t) =>
                  d <- decrypt (c :: t) ;; ret (with_title note d)
              | _ => ret note
              end ;;
      note <- match content encryptedNote with
              | Some (c :: t) =>
                  d <- decrypt (c :: t) ;; ret (with_content note d)
              | _ => ret note
              end ;;
      note <- match tags encryptedNote with
              | Some (t :: ts) =>
                  ds <- mapM decrypt (t :: ts) ;; ret (with_tags note ds)
              | _ => ret note
              end ;;
      ret (with_encrypted note false)
  | _ => ret encryptedNote
  end.

End NoteCodec.

(** ** Values and predicates of the statements *)

Section Statements.
Context {W : WebCrypto} {Eng : Engine}.

(** The key a passphrase and a salt derive. *)
Definition derivedKey (passphrase : jsstring) (salt : Uint8Array) : CryptoKey :=
  PBKDF2_SHA256 (TextEncoder_encode passphrase) salt 100000 keyLength.

(** The envelope of [data] under key [k] and nonce [iv]: base64 of the
    nonce followed by the ciphertext and tag. *)
Definition envelope (k : CryptoKey) (iv : Uint8Array) (data : jsstring) : jsstring :=
  encodeOctets
    (fromCharCode (iv ++ AES_GCM_encrypt k iv (TextEncoder_encode data))).

(** The number of elements of [combined] when [encrypt] seals [data]: the
    nonce, the UTF-8 bytes of the data and the tag. *)
Definition combinedLength (data : jsstring) : N :=
  12 + (N.of_nat (length (TextEncoder_encode data)) + 16).

(** [data] is short enough for [String.fromCharCode.apply] in [encrypt]. *)
Definition fits (data : jsstring) : bool :=
  combinedLength data <=? maxArguments.

Definition optFits (v : option jsstring) : bool :=
  match v with
  | Some t => fits t
  | None => true
  end.

(** All of title, content and tags of a note are short enough. *)
Definition noteFits (n : Note) : bool :=
  optFits (title n) && optFits (content n)
  && match tags n with
     | Some ts => forallb fits ts
     | None => true
     end.

(** The world in which [createUserVault] calls [initialize]: the items of
    the user removed, the new salt drawn and persisted. *)
Definition resalted (u : jsstring) (w : World) : World :=
  store (saltKeyOf u) (saltToHex (draw 16 w))
    (advance 16
       (unstore (testKeyOf u)
          (unstore (saltKeyOf u) (unstore (vaultKeyOf u) w)))).

(** The probe [createUserVault] persists, and the world it leaves. *)
Definition createdProbe (passphrase u : jsstring) (w : World) : jsstring :=
  envelope (derivedKey passphrase (draw 16 w)) (draw 12 (resalted u w))
    testMessage.

Definition createdVault (passphrase u : jsstring) (w : World) : World :=
  store (js "current_user") u
    (store (vaultKeyOf u) (js "true")
       (store (testKeyOf u) (createdProbe passphrase u w)
          (advance 12 (resalted u w)))).

(** Strings that UTF-8 encoding followed by decoding returns unchanged:
    well-formed and not starting with U+FEFF. *)
Definition utf8Stable (t : jsstring) : bool :=
  isWellFormed t && negb (startsWithBOM t).

Definition optStable (v : option jsstring) : bool :=
  match v with
  | Some t => utf8Stable t
  | None => true
  end.

(** All of title, content and tags of a note are such strings. *)
Definition noteStable (n : Note) : bool :=
  optStable (title n) && optStable (content n)
  && match tags n with
     | Some ts => forallb utf8Stable ts
     | None => true
     end.

(** Envelope [e] on its own decrypts to [t] under the key of [this]. *)
Definition opens_to (this : CryptoManager) (e t : jsstring) : Prop :=
  e <> [] /\ forall w, decrypt e (this, w) = (Ok t, (this, w)).

(** What [encryptNote] leaves in place of a field: an envelope of its own
    for a non-empty string, the field itself otherwise. *)
Definition field_sealed (this : CryptoManager)
    (plain sealed : option jsstring) : Prop :=
  match plain with
  | Some (c :: t) => exists e, sealed = Some e /\ opens_to this e (c :: t)
  | _ => sealed = plain
  end.

Definition tags_sealed (this : CryptoManager)
    (plain sealed : option (list jsstring)) : Prop :=
  match plain with
  | Some (t :: ts) =>
      exists es, sealed = Some es /\ Forall2 (opens_to this) es (t :: ts)
  | _ => sealed = plain
  end.

End Statements.

(** ** Small instances of the primitives

    Enough to run the methods on concrete inputs. A ciphertext is the data
    followed by 16 bytes that stand for the tag, and decryption compares
    them. In [crypto] the tag is the start of the key and the derived key
    is the first 8 bytes of the salt followed by the password: it decrypts
    what it encrypted under every key. In [committing] the tag spells out
    a key of at most 15 bytes with its length, a longer key opens nothing,
    and the derived key is cut to 15 bytes: no ciphertext opens under a key
    that did not seal it. With 16 bytes of tag and keys of any length no
    instance has both properties. *)
Module Toy.

Fixpoint bytes_eqb (a b : Uint8Array) : bool :=
  match a, b with
  | [], [] => true
  | x :: a', y :: b' => Byte.eqb x y && bytes_eqb a' b'
  | _, _ => false
  end.

(** The first 16 bytes of the key, zero bytes where it is shorter. *)
Definition tag (k : CryptoKey) : Uint8Array :=
  map (fun i => nth i k x00) (seq 0 16).

(** The length of the key and its bytes; 16 bytes [xff] for a key of more
    than 15 bytes. *)
Definition commitTag (k : CryptoKey) : Uint8Array :=
  map (fun i => if (length k <=? 15)%nat
                then nth i (ToUint8 (N.of_nat (length k)) :: k) x00
                else xff) (seq 0 16).

(** The data of a ciphertext whose last 16 bytes are [t]. *)
Definition unseal (t c : Uint8Array) : option Uint8Array :=
  let n := (length c - 16)%nat in
  if (16 <=? length c)%nat && bytes_eqb (skipn n c) t
  then Some (firstn n c) else None.

#[export] Instance crypto : WebCrypto := {
  PBKDF2_SHA256 := fun password salt _ _ => firstn 8 salt ++ password;
  AES_GCM_encrypt := fun k _ p => p ++ tag k;
  AES_GCM_decrypt := fun k _ c => unseal (tag k) c;
  AES_GCM_encrypt_length := fun k _ p =>
    eq_trans (length_app p (tag k))
      (f_equal (Nat.add (length p))
         (eq_trans (length_map _ _) (length_seq 16 0)))
}.

Definition committing : WebCrypto := {|
  PBKDF2_SHA256 := fun password salt _ _ => firstn 7 salt ++ firstn 8 password;
  AES_GCM_encrypt := fun k _ p => p ++ commitTag k;
  AES_GCM_decrypt := fun k _ c =>
    if (length k <=? 15)%nat then unseal (commitTag k) c else None;
  AES_GCM_encrypt_length := fun k _ p =>
    eq_trans (length_app p (commitTag k))
      (f_equal (Nat.add (length p))
         (eq_trans (length_map _ _) (length_seq 16 0)))
|}.

(** An engine with the argument limit of JavaScriptCore. *)
#[global] Instance engine : Engine := {
  maxArguments := 65536;
  maxArguments_min := proj1 (N.leb_le 47 65536) eq_refl
}.

Definition tape : nat -> byte := fun i => ToUint8 (N.of_nat i * 7 + 3).

Definition world0 : World := {| localStorage := ∅; entropy := tape |}.

Definition pw : jsstring := js "correct horse battery staple".
Definition wrongPw : jsstring := js "wrong pass".
Definition u1 : jsstring := js "u1".

(** A manager holding some key. *)
Definition manager : CryptoManager := unlocked [x2a] u1.

(** The world after [createUserVault(pw, 'u1')] on empty storage. *)
Definition vault0 : World := createdVault pw u1 world0.


(** Storage that holds a salt for 'u1' and nothing else. *)
Definition saltOnly : World := store (saltKeyOf u1) (saltToHex [x01; x02]) world0.

Definition note0 : Note :=
  {| id := js "n1"; title := Some (js "Groceries");
     content := Some (js "milk, eggs"); tags := Some [js "home"];
     pinned := false; archived := false;
     createdAt := js "2024-01-01T00:00:00.000Z";
     updatedAt := js "2024-01-01T00:00:00.000Z"; encrypted := None |}.

(** A note whose title is a lone high surrogate. *)
Definition noteSurrogate : Note :=
  {| id := js "n2"; title := Some [55296];
     content := Some (js "milk, eggs"); tags := Some [];
     pinned := false; archived := false;
     createdAt := js "2024-01-01T00:00:00.000Z";
     updatedAt := js "2024-01-01T00:00:00.000Z"; encrypted := None |}.

(** A note whose title starts with U+FEFF. *)
Definition noteBOM : Note :=
  {| id := js "n3"; title := Some (65279 :: js "Groceries");
     content := None; tags := None;
     pinned := false; archived := false;
     createdAt := js "2024-01-01T00:00:00.000Z";
     updatedAt := js "2024-01-01T00:00:00.000Z"; encrypted := None |}.

End Toy.

(** ** Passwords: analyzePasswordStrength and generateSecurePassword *)

(** The result object of [analyzePasswordStrength]. *)
Record Analysis : Type := {
  score : Z;
  feedback : list jsstring;
  strength : jsstring
}.

Definition isLowerAZ (c : N) : bool := (97 <=? c) && (c <=? 122).
Definition isUpperAZ (c : N) : bool := (65 <=? c) && (c <=? 90).
Definition isDigit09 (c : N) : bool := (48 <=? c) && (c <=? 57).
(** A code unit matched by [[^A-Za-z0-9]]. *)
Definition isOtherChar (c : N) : bool :=
  negb (isUpperAZ c || isLowerAZ c || isDigit09 c).

(** [/(.)\1{2,}/.test(s)]: a code unit that is no line terminator, followed
    by itself at least twice. *)
Fixpoint hasTripleRepeat (s : jsstring) : bool :=
  match s with
  | a :: rest =>
      match rest with
      | b :: c :: _ =>
          (negb (isLineTerminator a) && (a =? b) && (b =? c))
          || hasTripleRepeat rest
      | _ => false
      end
  | [] => false
  end.

(** [analyzePasswordStrength(password)] *)
Definition analyzePasswordStrength (password : jsstring) : Analysis :=
  let n := Z.of_nat (length password) in
  (* Length check *)
  let score0 := (if 12 <=? n then 2 else if 8 <=? n then 1 else 0)%Z in
  let feedback0 : list jsstring :=
    if (8 <=? n)%Z then [] else [js "Use at least 8 characters"] in
  (* Character variety *)
  let score1 := (if existsb isLowerAZ password then score0 + 1 else score0)%Z in
  let score2 := (if existsb isUpperAZ password then score1 + 1 else score1)%Z in
  let score3 := (if existsb isDigit09 password then score2 + 1 else score2)%Z in
  let score4 := (if existsb isOtherChar password then score3 + 1 else score3)%Z in
  (* Common patterns *)
  let score5 := (if hasTripleRepeat password then score4 - 1 else score4)%Z in
  let feedback1 :=
    if hasTripleRepeat password
    then feedback0 ++ [js "Avoid repeated characters"] else feedback0 in
  (* Determine strength *)
  {| score := score5; feedback := feedback1;
     strength := if (5 <=? score5)%Z then js "strong"
                 else if (3 <=? score5)%Z then js "medium" else js "weak" |}.

Definition charset : jsstring :=
  js "ABCDEFGHIJKLMNOPQRSTUVWXYZabcdefghijklmnopqrstuvwxyz0123456789!@#$%^&*".

(** [charset[byte % charset.length]] *)
Definition charsetAt (byte : byte) : N :=
  nth (N.to_nat (Byte.to_N byte mod N.of_nat (List.length charset))) charset 0.

(** [generateSecurePassword(length)]; [None] is an exception:
    [crypto.getRandomValues] throws a QuotaExceededError on an array of
    more than 65536 bytes. *)
Definition generateSecurePassword (length : nat) (w : World)
  : option jsstring * World :=
  if 65536 <? N.of_nat length then (None, w)
  else (Some (map charsetAt (draw length w)), advance length w).

(** [generateSecurePassword()] with the default [length = 16]. *)
Definition generateSecurePassword_default (w : World)
  : option jsstring * World :=
  generateSecurePassword 16 w.

(** All byte values, in order. *)
Definition allBytes : list byte := map (fun i => ToUint8 (N.of_nat i)) (seq 0 256).

(** ** Callers in the application (SecureNotesApp) *)

Section App.
Context {W : WebCrypto} {Eng : Engine}.

(** The loop of [loadNotes] over the notes read from the store: a note
    that does not decrypt is skipped. [notes] is [this.notes]. *)
Fixpoint loadNotes_loop (encryptedNotes notes : list Note) : M (list Note) :=
  match encryptedNotes with
  | [] => ret notes
  | encryptedNote :: rest =>
      notes' <- try_catch
                  (decryptedNote <- decryptNote encryptedNote ;;
                   ret (notes ++ [decryptedNote]))
                  (fun _ => ret notes) ;;
      loadNotes_loop rest notes'
  end.

(** [loadNotes()] on the result of [storage.getAllNotes()]; the calls
    that update the page are left out. *)
Definition loadNotes (encryptedNotes : list Note) : M (list Note) :=
  loadNotes_loop encryptedNotes [].

End App.

(** [s.trim()] *)
Definition trim (s : jsstring) : jsstring :=
  rev (trimStart (rev (trimStart s))).

(** [s.split(',')] *)
Fixpoint split_comma (s : jsstring) : list jsstring :=
  match s with
  | [] => [[]]
  | c :: rest =>
      if c =? 44 then [] :: split_comma rest
      else match split_comma rest with
           | first :: others => (c :: first) :: others
           | [] => [[c]]
           end
  end.

(** A string that does not start with white space. *)
Definition startsClean (s : jsstring) : Prop :=
  match s with
  | c :: _ => isStrWhiteSpaceChar c = false
  | [] => True
  end.

(** The tags [saveCurrentNote] reads from the tags input:
    [tagsInput ? tagsInput.split(',').map(tag => tag.trim()).filter(tag => tag) : []] *)
Definition editorTags (tagsInput : jsstring) : list jsstring :=
  match tagsInput with
  | [] => []
  | _ => List.filter (fun tag => match tag with [] => false | _ => true end)
           (map trim (split_comma tagsInput))
  end.

(** The title [saveCurrentNote] reads from the title input:
    [value.trim() || 'Untitled'] *)
Definition editorTitle (value : jsstring) : jsstring :=
  match trim value with
  | [] => js "Untitled"
  | t => t
  end.

Section AppSave.
Context {W : WebCrypto} {Eng : Engine}.

(** The note [saveCurrentNote] passes to [storage.saveNote]: the fields of
    the editor are written into the current note, which is then encrypted.
    [now] is [new Date().toISOString()]. *)
Definition saveCurrentNote_encrypt (currentNote : Note)
    (titleInput contentInput tagsInput now : jsstring) : M Note :=
  let currentNote :=
    {| id := id currentNote; title := Some (editorTitle titleInput);
       content := Some contentInput; tags := Some (editorTags tagsInput);
       pinned := pinned currentNote; archived := archived currentNote;
       createdAt := createdAt currentNote; updatedAt := now;
       encrypted := encrypted currentNote |} in
  encryptNote currentNote.

End AppSave.

(** ** Inputs of the further examples *)
Module Samples.

(** A note encrypted under another key than [Toy.manager]'s. *)
Definition foreignNote : Note :=
  match fst (encryptNote (W := Toy.crypto) Toy.note0
               (unlocked [x07] Toy.u1, Toy.world0)) with
  | Ok n => n
  | Throw _ => Toy.note0
  end.

(** Storage whose salt for 'u1' is a single line feed. *)
Definition brokenSalt : World := store (saltKeyOf Toy.u1) [10] Toy.world0.

(** The vault of 'u1' beside the salt of another user 'u2'. *)
Definition u2 : jsstring := js "u2".
Definition twoUsers : World :=
  store (saltKeyOf u2) (saltToHex [x01; x02]) Toy.vault0.

(** A note without title, content and tags. *)
Definition blankNote : Note :=
  {| id := js "n4"; title := Some []; content := None; tags := Some [];
     pinned := true; archived := false;
     createdAt := js "2024-01-01T00:00:00.000Z";
     updatedAt := js "2024-01-01T00:00:00.000Z"; encrypted := None |}.

End Samples.

(** * Properties *)

(** ** Bytes *)

Lemma to_N_lt (b : byte) : Byte.to_N b < 256.
Proof. pose proof (Byte.to_N_bounded b). lia. Qed.

Lemma to_N_ToUint8 (n : N) : n < 256 -> Byte.to_N (ToUint8 n) = n.
Proof.
  intros Hn. unfold ToUint8. rewrite N.mod_small by exact Hn.
  destruct (Byte.of_N n) as [b|] eqn:E.
  - now apply Byte.to_of_N.
  - apply Byte.of_N_None_iff in E. lia.
Qed.

Lemma ToUint8_to_N (b : byte) : ToUint8 (Byte.to_N b) = b.
Proof.
  unfold ToUint8. rewrite N.mod_small by apply to_N_lt.
  now rewrite Byte.of_to_N.
Qed.

Lemma charCodes_fromCharCode (bs : Uint8Array) :
  charCodes (fromCharCode bs) = bs.
Proof.
  unfold charCodes, fromCharCode. induction bs as [|b bs IH]; simpl.
  - reflexivity.
  - now rewrite ToUint8_to_N, IH.
Qed.

Lemma fromCharCode_octets (bs : Uint8Array) :
  Forall (fun c => c < 256) (fromCharCode bs).
Proof.
  unfold fromCharCode. induction bs as [|b bs IH]; simpl; constructor.
  - apply to_N_lt.
  - exact IH.
Qed.

Lemma map_seq_length (n : nat) (f : nat -> byte) :
  length (map f (seq 0 n)) = n.
Proof. now rewrite length_map, length_seq. Qed.

(** ** Salt strings read back *)

Lemma hex_pair_of_byte (b : byte) :
  padStart2 (toString16 b)
  = [hexDigit (Byte.to_N b / 16); hexDigit (Byte.to_N b mod 16)].
Proof. destruct b; reflexivity. Qed.

Lemma hex_pair_no_terminator (b : byte) :
  isLineTerminator (hexDigit (Byte.to_N b / 16)) = false
  /\ isLineTerminator (hexDigit (Byte.to_N b mod 16)) = false.
Proof. destruct b; split; reflexivity. Qed.

Lemma parseInt16_hex_pair (b : byte) :
  ToUint8_number
    (parseInt16 [hexDigit (Byte.to_N b / 16); hexDigit (Byte.to_N b mod 16)])
  = b.
Proof. destruct b; reflexivity. Qed.

Lemma matchPairs_saltToHex (bs : Uint8Array) :
  matchPairs (saltToHex bs) = map (fun b => padStart2 (toString16 b)) bs.
Proof.
  unfold saltToHex. induction bs as [|b bs IH]; [reflexivity|].
  cbn [map concat]. rewrite hex_pair_of_byte.
  destruct (hex_pair_no_terminator b) as [Hh Hl].
  cbn [app matchPairs]. rewrite Hh, Hl. now rewrite IH.
Qed.

Lemma parse_hex_pairs (bs : Uint8Array) :
  map (fun byte => ToUint8_number (parseInt16 byte))
      (map (fun b => padStart2 (toString16 b)) bs) = bs.
Proof.
  induction bs as [|b bs IH]; [reflexivity|].
  cbn [map]. rewrite IH, hex_pair_of_byte. now rewrite parseInt16_hex_pair.
Qed.

(** A salt written by [saltToHex] is read back by [saltFromHex]. *)
Lemma saltFromHex_saltToHex (bs : Uint8Array) :
  bs <> [] -> saltFromHex (saltToHex bs) = Some bs.
Proof.
  intros Hne. unfold saltFromHex, match_1_2.
  rewrite matchPairs_saltToHex.
  pose proof (parse_hex_pairs bs) as Hp.
  destruct bs as [|b bs]; [congruence|].
  cbn [map] in *. now rewrite Hp.
Qed.

Lemma saltToHex_nonempty (bs : Uint8Array) :
  bs <> [] -> exists c s, saltToHex bs = c :: s.
Proof.
  destruct bs as [|b bs]; [congruence|]. intros _.
  unfold saltToHex. cbn [map concat]. rewrite hex_pair_of_byte.
  cbn [app]. eauto.
Qed.

(** ** base64 *)

(** Induction over a list three elements at a time. *)
Lemma list_ind3 {A} (P : list A -> Prop) :
  P [] -> (forall a, P [a]) -> (forall a b, P [a; b]) ->
  (forall a b c r, P r -> P (a :: b :: c :: r)) ->
  forall l, P l.
Proof.
  intros H0 H1 H2 H3.
  fix IH 1. intros [|a [|b [|c r]]].
  - exact H0.
  - exact (H1 a).
  - exact (H2 a b).
  - exact (H3 a b c r (IH r)).
Qed.

(** A property of all sextets, checked on the 64 of them. *)
Lemma sextet_cases (P : N -> bool) :
  forallb P (map N.of_nat (seq 0 64)) = true ->
  forall v, v < 64 -> P v = true.
Proof.
  intros H v Hv. rewrite forallb_forall in H. apply H.
  rewrite <- (N2Nat.id v). apply in_map. apply in_seq. lia.
Qed.

Lemma b64val_b64char (v : N) : v < 64 -> b64val (b64char v) = Some v.
Proof.
  intros Hv.
  pose proof (sextet_cases
    (fun v => match b64val (b64char v) with
              | Some w => w =? v | None => false end) eq_refl v Hv) as H.
  cbv beta in H. destruct (b64val (b64char v)); [|discriminate].
  apply N.eqb_eq in H. now subst.
Qed.

Lemma b64char_not_pad (v : N) : v < 64 -> (b64char v =? 61) = false.
Proof.
  intros Hv.
  apply negb_true_iff, (sextet_cases (fun v => negb (b64char v =? 61)) eq_refl v Hv).
Qed.

Lemma b64char_not_space (v : N) :
  v < 64 -> negb (isAsciiWhitespace (b64char v)) = true.
Proof.
  intros Hv.
  exact (sextet_cases (fun v => negb (isAsciiWhitespace (b64char v))) eq_refl v Hv).
Qed.

Lemma octetSextets_bound (l : list N) :
  Forall (fun c => c < 256) l -> Forall (fun v => v < 64) (octetSextets l).
Proof.
  induction l as [| a | a b | a b c r IH] using list_ind3; intros H.
  - constructor.
  - inversion_clear H. cbn [octetSextets]. repeat constructor; lia.
  - inversion_clear H as [|? ? Ha H']. inversion_clear H' as [|? ? Hb _].
    cbn [octetSextets]. repeat constructor; lia.
  - inversion_clear H as [|? ? Ha H']. inversion_clear H' as [|? ? Hb H''].
    inversion_clear H'' as [|? ? Hc Hr].
    cbn [octetSextets]. repeat (constructor; [lia|]). auto.
Qed.

Ltac cons_lia := repeat (apply (f_equal2 cons); [lia|]); try reflexivity.

Lemma decodeSextets_octetSextets (l : list N) :
  Forall (fun c => c < 256) l -> decodeSextets (octetSextets l) = l.
Proof.
  induction l as [| a | a b | a b c r IH] using list_ind3; intros H.
  - reflexivity.
  - inversion_clear H. cbn [octetSextets decodeSextets]. cons_lia.
  - inversion_clear H as [|? ? Ha H']. inversion_clear H' as [|? ? Hb _].
    cbn [octetSextets decodeSextets]. cons_lia.
  - inversion_clear H as [|? ? Ha H']. inversion_clear H' as [|? ? Hb H''].
    inversion_clear H'' as [|? ? Hc Hr].
    cbn [octetSextets decodeSextets]. rewrite (IH Hr). cons_lia.
Qed.

(** The number of sextets of n octets: 4k, 4k+2 or 4k+3. *)
Lemma octetSextets_length (l : list N) :
  let n := N.of_nat (length l) in
  let m := N.of_nat (length (octetSextets l)) in
  (n mod 3 = 0 /\ m mod 4 = 0) \/ (n mod 3 = 1 /\ m mod 4 = 2)
  \/ (n mod 3 = 2 /\ m mod 4 = 3).
Proof.
  induction l as [| a | a b | a b c r IH] using list_ind3.
  - left. split; reflexivity.
  - right. left. split; reflexivity.
  - right. right. split; reflexivity.
  - cbn [octetSextets length] in *. cbv zeta in *. lia.
Qed.

Lemma sextets_b64char (vs : list N) :
  Forall (fun v => v < 64) vs -> sextets (map b64char vs) = Some vs.
Proof.
  induction 1 as [|v vs Hv _ IH]; [reflexivity|].
  cbn [map sextets]. now rewrite (b64val_b64char v Hv), IH.
Qed.

Lemma filter_space_b64char (vs : list N) :
  Forall (fun v => v < 64) vs ->
  List.filter (fun c => negb (isAsciiWhitespace c)) (map b64char vs)
  = map b64char vs.
Proof.
  induction 1 as [|v vs Hv _ IH]; [reflexivity|].
  cbn [map List.filter]. now rewrite (b64char_not_space v Hv), IH.
Qed.

(** Padding is one of three strings, none of them white space. *)
Lemma padding_cases (n : nat) :
  let r := N.of_nat n mod 3 in
  (r = 0 /\ padding n = []) \/ (r = 1 /\ padding n = [61; 61])
  \/ (r = 2 /\ padding n = [61]).
Proof.
  cbv zeta. unfold padding.
  destruct (N.eqb_spec (N.of_nat n mod 3) 1) as [E1|E1]; [auto|].
  destruct (N.eqb_spec (N.of_nat n mod 3) 2) as [E2|E2]; [auto|].
  left. split; [lia|reflexivity].
Qed.

(** Stripping the padding of an encoding leaves the characters of the
    sextets. *)
Lemma stripPadding_encodeOctets (l : list N) :
  Forall (fun c => c < 256) l ->
  stripPadding (encodeOctets l) = map b64char (octetSextets l).
Proof.
  intros Hl. pose proof (octetSextets_bound l Hl) as Hb.
  pose proof (octetSextets_length l) as Hlen. cbv zeta in Hlen.
  unfold stripPadding, encodeOctets.
  rewrite length_app, length_map, rev_app_distr.
  assert (Hlast : forall c r, rev (map b64char (octetSextets l)) = c :: r ->
                              (c =? 61) = false).
  { intros c r E.
    assert (In c (map b64char (octetSextets l))) as Hin
      by (apply in_rev; rewrite E; left; reflexivity).
    apply in_map_iff in Hin. destruct Hin as [v [<- Hv]].
    apply b64char_not_pad. rewrite List.Forall_forall in Hb. now apply Hb. }
  destruct (padding_cases (length l)) as [[Hr Hp]|[[Hr Hp]|[Hr Hp]]];
    cbv zeta in Hr; rewrite Hp; cbn [length rev app].
  - replace (N.of_nat (length (octetSextets l) + 0) mod 4 =? 0) with true
      by (symmetry; apply N.eqb_eq; lia).
    rewrite app_nil_r.
    destruct (rev (map b64char (octetSextets l))) as [|c1 [|c2 r]] eqn:E;
      try reflexivity.
    now rewrite (Hlast _ _ eq_refl).
  - replace (N.of_nat (length (octetSextets l) + 2) mod 4 =? 0) with true
      by (symmetry; apply N.eqb_eq; lia).
    cbn. now rewrite rev_involutive.
  - replace (N.of_nat (length (octetSextets l) + 1) mod 4 =? 0) with true
      by (symmetry; apply N.eqb_eq; lia).
    cbn.
    destruct (rev (map b64char (octetSextets l))) as [|c1 r] eqn:E.
    + apply (f_equal (@rev N)) in E. rewrite rev_involutive in E.
      cbn in E. apply map_eq_nil in E. rewrite E in Hlen. cbn in Hlen. lia.
    + rewrite (Hlast _ _ eq_refl).
      apply (f_equal (@rev N)) in E. rewrite rev_involutive in E.
      cbn in E. now rewrite E.
Qed.

(** [atob] undoes [btoa] on strings of octets. *)
Lemma atob_encodeOctets (l : list N) :
  Forall (fun c => c < 256) l -> atob (encodeOctets l) = Ok l.
Proof.
  intros Hl. pose proof (octetSextets_bound l Hl) as Hb.
  unfold atob.
  assert (Hf : List.filter (fun c => negb (isAsciiWhitespace c)) (encodeOctets l)
               = encodeOctets l).
  { unfold encodeOctets. rewrite List.filter_app, (filter_space_b64char _ Hb).
    f_equal.
    destruct (padding_cases (length l)) as [[_ Hp]|[[_ Hp]|[_ Hp]]];
      rewrite Hp; reflexivity. }
  rewrite Hf, (stripPadding_encodeOctets l Hl), length_map.
  pose proof (octetSextets_length l) as Hlen. cbv zeta in Hlen.
  replace (N.of_nat (length (octetSextets l)) mod 4 =? 1) with false
    by (symmetry; apply N.eqb_neq; lia).
  now rewrite (sextets_b64char _ Hb), (decodeSextets_octetSextets l Hl).
Qed.

Lemma btoa_octets (l : list N) :
  Forall (fun c => c < 256) l -> btoa l = Ok (encodeOctets l).
Proof.
  intros Hl. unfold btoa.
  replace (forallb (fun c => c <=? 255) l) with true; [reflexivity|].
  symmetry. apply forallb_forall. rewrite List.Forall_forall in Hl.
  intros c Hc. apply N.leb_le. specialize (Hl c Hc). cbv beta in Hl. lia.
Qed.

(** An encoding is empty only for the empty input. *)
Lemma encodeOctets_nonempty (l : list N) :
  l <> [] -> exists c s, encodeOctets l = c :: s.
Proof.
  destruct l as [|a [|b [|c r]]]; [congruence| | |]; intros _;
    unfold encodeOctets; cbn [octetSextets map app]; eauto.
Qed.

(** ** UTF-8 *)

Lemma isScalar_spec (c : N) :
  isScalar c = true <-> c < 55296 \/ 57344 <= c < 1114112.
Proof.
  unfold isScalar.
  rewrite orb_true_iff, andb_true_iff, !N.ltb_lt, N.leb_le. tauto.
Qed.

Lemma between_true (lo hi n : N) :
  lo <= n <= hi -> (lo <=? n) && (n <=? hi) = true.
Proof. intros [H1 H2]. apply andb_true_iff. split; now apply N.leb_le. Qed.

Lemma between_false (lo hi n : N) :
  n < lo \/ hi < n -> (lo <=? n) && (n <=? hi) = false.
Proof.
  intros H. apply andb_false_iff.
  destruct H; [left|right]; now apply N.leb_gt.
Qed.

Lemma inRange_true (lo hi : N) (b : byte) :
  lo <= Byte.to_N b <= hi -> inRange lo hi b = true.
Proof. apply between_true. Qed.

(** The decoder on well-formed sequences of one to four bytes. *)
Lemma utf8_decode_1 (b1 : byte) (r : Uint8Array) :
  Byte.to_N b1 < 128 ->
  utf8_decode (b1 :: r) = Byte.to_N b1 :: utf8_decode r.
Proof.
  intros H1. cbn [utf8_decode]. cbv zeta.
  now rewrite (proj2 (N.ltb_lt _ _) H1).
Qed.

Lemma utf8_decode_2 (b1 b2 : byte) (r : Uint8Array) :
  194 <= Byte.to_N b1 <= 223 -> 128 <= Byte.to_N b2 <= 191 ->
  utf8_decode (b1 :: b2 :: r)
  = (Byte.to_N b1 - 192) * 64 + contBits b2 :: utf8_decode r.
Proof.
  intros H1 H2. cbn [utf8_decode]. cbv zeta.
  rewrite (proj2 (N.ltb_ge _ _)) by lia.
  rewrite (between_true 194 223) by exact H1.
  now rewrite inRange_true by exact H2.
Qed.

Lemma utf8_decode_3 (b1 b2 b3 : byte) (r : Uint8Array) :
  224 <= Byte.to_N b1 <= 239 ->
  (if Byte.to_N b1 =? 224 then 160 else 128) <= Byte.to_N b2
    <= (if Byte.to_N b1 =? 237 then 159 else 191) ->
  128 <= Byte.to_N b3 <= 191 ->
  utf8_decode (b1 :: b2 :: b3 :: r)
  = ((Byte.to_N b1 - 224) * 64 + contBits b2) * 64 + contBits b3
    :: utf8_decode r.
Proof.
  intros H1 H2 H3. cbn [utf8_decode]. cbv zeta.
  rewrite (proj2 (N.ltb_ge _ _)) by lia.
  rewrite (between_false 194 223) by lia.
  rewrite (between_true 224 239) by exact H1.
  rewrite inRange_true by exact H2.
  now rewrite inRange_true by exact H3.
Qed.

Lemma utf8_decode_4 (b1 b2 b3 b4 : byte) (r : Uint8Array) :
  240 <= Byte.to_N b1 <= 244 ->
  (if Byte.to_N b1 =? 240 then 144 else 128) <= Byte.to_N b2
    <= (if Byte.to_N b1 =? 244 then 143 else 191) ->
  128 <= Byte.to_N b3 <= 191 ->
  128 <= Byte.to_N b4 <= 191 ->
  utf8_decode (b1 :: b2 :: b3 :: b4 :: r)
  = (((Byte.to_N b1 - 240) * 64 + contBits b2) * 64 + contBits b3) * 64
    + contBits b4 :: utf8_decode r.
Proof.
  intros H1 H2 H3 H4. cbn [utf8_decode]. cbv zeta.
  rewrite (proj2 (N.ltb_ge _ _)) by lia.
  rewrite (between_false 194 223) by lia.
  rewrite (between_false 224 239) by lia.
  rewrite (between_true 240 244) by exact H1.
  rewrite inRange_true by exact H2.
  rewrite inRange_true by exact H3.
  now rewrite inRange_true by exact H4.
Qed.

(** Decoding the bytes of one scalar value yields it and goes on behind
    them. *)
Lemma utf8_decode_encode_cp (c : N) (r : Uint8Array) :
  isScalar c = true ->
  utf8_decode (utf8_encode_cp c ++ r) = c :: utf8_decode r.
Proof.
  intros Hc. apply isScalar_spec in Hc. unfold utf8_encode_cp.
  destruct (N.ltb_spec c 128) as [H1|H1];
    [|destruct (N.ltb_spec c 2048) as [H2|H2];
      [|destruct (N.ltb_spec c 65536) as [H3|H3]]];
    cbn [app].
  - rewrite utf8_decode_1; rewrite to_N_ToUint8 by lia; [reflexivity|lia].
  - rewrite utf8_decode_2; unfold contBits; rewrite ?to_N_ToUint8 by lia.
    + f_equal. lia.
    + lia.
    + lia.
  - rewrite utf8_decode_3; unfold contBits; rewrite ?to_N_ToUint8 by lia.
    + f_equal. lia.
    + lia.
    + destruct (N.eqb_spec (224 + c / 4096) 224);
        destruct (N.eqb_spec (224 + c / 4096) 237); lia.
    + lia.
  - rewrite utf8_decode_4; unfold contBits; rewrite ?to_N_ToUint8 by lia.
    + f_equal. lia.
    + lia.
    + destruct (N.eqb_spec (240 + c / 262144) 240);
        destruct (N.eqb_spec (240 + c / 262144) 244); lia.
    + lia.
    + lia.
Qed.

Lemma utf8_decode_encode (cps : list N) :
  Forall (fun c => isScalar c = true) cps ->
  utf8_decode (concat (map utf8_encode_cp cps)) = cps.
Proof.
  induction 1 as [|c cps Hc _ IH]; [reflexivity|].
  cbn [map concat]. now rewrite utf8_decode_encode_cp, IH.
Qed.

Lemma surrogate_spec (c : N) :
  (isHighSurrogate c = true <-> 55296 <= c <= 56319)
  /\ (isLowSurrogate c = true <-> 56320 <= c <= 57343).
Proof.
  unfold isHighSurrogate, isLowSurrogate.
  rewrite !andb_true_iff, !N.leb_le. tauto.
Qed.

(** Induction over a string by its length, for functions that look one
    code unit ahead. *)
Lemma jsstring_ind2 (P : jsstring -> Prop) :
  P [] -> (forall c, P [c]) ->
  (forall c d r, P r -> P (d :: r) -> P (c :: d :: r)) ->
  forall s, P s.
Proof.
  intros H0 H1 H2 s.
  enough (P s /\ forall c, P (c :: s)) by tauto.
  induction s as [|d r [IHr IHdr]]; split; auto.
Qed.

(** The code points of a well-formed string are scalar values, and their
    code units are the string. *)
Lemma toCodePoints_wellFormed (s : jsstring) :
  isWellFormed s = true ->
  Forall (fun c => isScalar c = true) (toCodePoints s)
  /\ concat (map fromCodePoint (toCodePoints s)) = s.
Proof.
  induction s as [| c | c d r IHr IHdr] using jsstring_ind2.
  - intros _. split; [constructor|reflexivity].
  - cbn [isWellFormed toCodePoints].
    destruct (isHighSurrogate c) eqn:Eh; [discriminate|].
    destruct (isLowSurrogate c) eqn:El; [discriminate|].
    cbn [negb andb]. rewrite andb_true_r, N.ltb_lt. intros Hc.
    assert (Hs : isScalar c = true).
    { apply isScalar_spec.
      destruct (surrogate_spec c) as [S1 S2].
      destruct (N.lt_ge_cases c 55296); [auto|right].
      destruct (N.le_gt_cases c 56319) as [Hle|Hgt].
      - rewrite (proj2 S1) in Eh by lia. discriminate.
      - destruct (N.le_gt_cases c 57343) as [Hle'|Hgt'].
        + rewrite (proj2 S2) in El by lia. discriminate.
        + lia. }
    split; [repeat constructor; exact Hs|].
    cbn [map concat]. unfold fromCodePoint.
    now rewrite (proj2 (N.ltb_lt _ _) Hc).
  - intros Hwf.
    change (isWellFormed (c :: d :: r)) with
      (if isHighSurrogate c then isLowSurrogate d && isWellFormed r
       else negb (isLowSurrogate c) && (c <? 65536) && isWellFormed (d :: r))
      in Hwf.
    change (toCodePoints (c :: d :: r)) with
      (if isHighSurrogate c then
         if isLowSurrogate d
         then (65536 + (c - 55296) * 1024 + (d - 56320)) :: toCodePoints r
         else 65533 :: toCodePoints (d :: r)
       else if isLowSurrogate c then 65533 :: toCodePoints (d :: r)
       else c :: toCodePoints (d :: r)).
    destruct (isHighSurrogate c) eqn:Eh.
    + apply andb_true_iff in Hwf. destruct Hwf as [Ed Hr].
      rewrite Ed. destruct (IHr Hr) as [F E].
      apply (proj1 (surrogate_spec c)) in Eh.
      apply (proj2 (surrogate_spec d)) in Ed.
      split.
      * constructor; [|exact F]. apply isScalar_spec. lia.
      * cbn [map concat]. rewrite E. unfold fromCodePoint.
        rewrite (proj2 (N.ltb_ge _ _)) by lia.
        cbn [app]. f_equal; [lia|]. f_equal. lia.
    + destruct (isLowSurrogate c) eqn:El; [discriminate|].
      cbn [negb andb] in Hwf. apply andb_true_iff in Hwf.
      destruct Hwf as [Hc Hr]. apply N.ltb_lt in Hc.
      destruct (IHdr Hr) as [F E].
      assert (Hs : isScalar c = true).
      { apply isScalar_spec.
        destruct (surrogate_spec c) as [S1 S2].
        destruct (N.lt_ge_cases c 55296); [auto|right].
        destruct (N.le_gt_cases c 56319) as [Hle|Hgt].
        - rewrite (proj2 S1) in Eh by lia. discriminate.
        - destruct (N.le_gt_cases c 57343) as [Hle'|Hgt'].
          + rewrite (proj2 S2) in El by lia. discriminate.
          + lia. }
      split; [constructor; assumption|].
      cbn [map concat]. rewrite E. unfold fromCodePoint.
      now rewrite (proj2 (N.ltb_lt _ _) Hc).
Qed.

(** The first code point is U+FEFF only when the first code unit is. *)
Lemma stripBOM_toCodePoints (s : jsstring) :
  startsWithBOM s = false -> stripBOM (toCodePoints s) = toCodePoints s.
Proof.
  destruct s as [|c r]; [reflexivity|].
  cbn [startsWithBOM toCodePoints]. intros Hc. apply N.eqb_neq in Hc.
  destruct (isHighSurrogate c) eqn:Eh.
  - destruct r as [|d r']; [reflexivity|].
    destruct (isLowSurrogate d); [|reflexivity].
    apply (proj1 (surrogate_spec c)) in Eh.
    cbn [stripBOM].
    now rewrite (proj2 (N.eqb_neq _ _)) by lia.
  - destruct (isLowSurrogate c); [reflexivity|].
    cbn [stripBOM]. now rewrite (proj2 (N.eqb_neq _ _) Hc).
Qed.

(** Encoding then decoding a well-formed string that does not start with
    U+FEFF returns the string. *)
Lemma TextDecoder_TextEncoder (s : jsstring) :
  isWellFormed s = true -> startsWithBOM s = false ->
  TextDecoder_decode (TextEncoder_encode s) = s.
Proof.
  intros Hwf Hbom. unfold TextDecoder_decode, TextEncoder_encode.
  destruct (toCodePoints_wellFormed s Hwf) as [F E].
  now rewrite (utf8_decode_encode _ F), (stripBOM_toCodePoints s Hbom).
Qed.

(** ** The cipher methods, executed *)

Lemma firstn_prefix {A} (n : nat) (a b : list A) :
  length a = n -> firstn n (a ++ b) = a.
Proof.
  intros <-. now rewrite firstn_app, Nat.sub_diag, firstn_all, app_nil_r.
Qed.

Lemma skipn_prefix {A} (n : nat) (a b : list A) :
  length a = n -> skipn n (a ++ b) = b.
Proof.
  intros <-. now rewrite skipn_app, Nat.sub_diag, skipn_all.
Qed.

Section Cipher.
Context {W : WebCrypto} {Eng : Engine}.

Lemma draw_length (n : nat) (w : World) : length (draw n w) = n.
Proof. apply map_seq_length. Qed.

(** The array handed to [String.fromCharCode.apply] has the nonce, as many
    bytes as the data and the tag. *)
Lemma combined_length (k : CryptoKey) (iv : Uint8Array) (data : jsstring) :
  length iv = 12%nat ->
  N.of_nat (length (iv ++ AES_GCM_encrypt k iv (TextEncoder_encode data)))
  = combinedLength data.
Proof.
  intros Hiv. rewrite length_app, AES_GCM_encrypt_length, Hiv.
  unfold combinedLength. lia.
Qed.

(** With a key, [encrypt] draws twelve random bytes; it returns the
    envelope under them when the data is short enough for the engine, and
    throws 'Failed to encrypt data' otherwise. *)
Lemma encrypt_run (this : CryptoManager) (w : World) (k : CryptoKey)
    (data : jsstring) :
  key this = Some k ->
  encrypt data (this, w)
  = (if fits data then Ok (envelope k (draw 12 w) data)
     else Throw EncryptFailedError, (this, advance 12 w)).
Proof.
  intros Hk.
  unfold encrypt, bind, get_key, try_catch, getRandomValues,
    fromCharCode_apply.
  cbn [fst snd]. rewrite Hk. cbn [fst snd].
  rewrite (combined_length k _ data (draw_length 12 w)).
  fold (fits data). destruct (fits data); [|reflexivity].
  rewrite btoa_octets by apply fromCharCode_octets.
  reflexivity.
Qed.

Lemma encrypt_fits (this : CryptoManager) (w : World) (k : CryptoKey)
    (data : jsstring) :
  key this = Some k -> fits data = true ->
  encrypt data (this, w)
  = (Ok (envelope k (draw 12 w) data), (this, advance 12 w)).
Proof. intros Hk Hf. now rewrite (encrypt_run this w k data Hk), Hf. Qed.

Lemma encrypt_too_long (this : CryptoManager) (w : World) (k : CryptoKey)
    (data : jsstring) :
  key this = Some k -> fits data = false ->
  encrypt data (this, w) = (Throw EncryptFailedError, (this, advance 12 w)).
Proof. intros Hk Hf. now rewrite (encrypt_run this w k data Hk), Hf. Qed.

(** Data of at most 19 bytes is short enough for every engine. *)
Lemma fits_short (data : jsstring) :
  N.of_nat (length (TextEncoder_encode data)) <= 19 -> fits data = true.
Proof.
  intros Hl. unfold fits, combinedLength. apply N.leb_le.
  pose proof maxArguments_min. lia.
Qed.

Lemma testMessage_fits : fits testMessage = true.
Proof. apply fits_short. vm_compute. discriminate. Qed.

(** The validation constant is sealed under every key. *)
Lemma encrypt_probe (this : CryptoManager) (w : World) (k : CryptoKey) :
  key this = Some k ->
  encrypt testMessage (this, w)
  = (Ok (envelope k (draw 12 w) testMessage), (this, advance 12 w)).
Proof. intros Hk. exact (encrypt_fits this w k _ Hk testMessage_fits). Qed.

Lemma encrypt_no_key (this : CryptoManager) (w : World) (data : jsstring) :
  key this = None ->
  encrypt data (this, w) = (Throw NotInitializedError, (this, w)).
Proof.
  intros Hk. unfold encrypt, bind, get_key. cbn [fst snd]. now rewrite Hk.
Qed.

Lemma decrypt_no_key (this : CryptoManager) (w : World) (e : jsstring) :
  key this = None ->
  decrypt e (this, w) = (Throw NotInitializedError, (this, w)).
Proof.
  intros Hk. unfold decrypt, bind, get_key. cbn [fst snd]. now rewrite Hk.
Qed.

(** [decrypt] changes neither the manager nor the world. *)
Lemma decrypt_state (e : jsstring) (s : State) : snd (decrypt e s) = s.
Proof.
  destruct s as [this w]. unfold decrypt, bind, get_key, try_catch.
  cbn [fst snd]. destruct (key this) as [k|]; [|reflexivity].
  destruct (atob e) as [bin|err]; [|reflexivity].
  destruct (AES_GCM_decrypt k _ _); reflexivity.
Qed.

(** [decrypt] on an envelope hands the nonce and the ciphertext it was
    built from to AES-GCM. *)
Lemma decrypt_envelope (this : CryptoManager) (w : World)
    (k k' : CryptoKey) (iv : Uint8Array) (data : jsstring) :
  key this = Some k' -> length iv = 12%nat ->
  decrypt (envelope k iv data) (this, w)
  = (match AES_GCM_decrypt k' iv
             (AES_GCM_encrypt k iv (TextEncoder_encode data)) with
     | Some decrypted => Ok (TextDecoder_decode decrypted)
     | None => Throw DecryptFailedError
     end, (this, w)).
Proof.
  intros Hk Hiv. unfold decrypt, bind, get_key, try_catch, envelope.
  cbn [fst snd]. rewrite Hk.
  rewrite atob_encodeOctets by apply fromCharCode_octets.
  rewrite charCodes_fromCharCode.
  rewrite (firstn_prefix 12 _ _ Hiv), (skipn_prefix 12 _ _ Hiv).
  destruct (AES_GCM_decrypt k' iv _); reflexivity.
Qed.

(** An envelope is never the empty string. *)
Lemma envelope_nonempty (k : CryptoKey) (w : World) (data : jsstring) :
  exists c t, envelope k (draw 12 w) data = c :: t.
Proof.
  unfold envelope. apply encodeOctets_nonempty.
  unfold draw. cbn. discriminate.
Qed.

(** Envelopes under nonces of twelve bytes differ when the nonces do. *)
Lemma envelope_inj_iv (k : CryptoKey) (iv1 iv2 : Uint8Array)
    (d1 d2 : jsstring) :
  length iv1 = 12%nat -> length iv2 = 12%nat ->
  envelope k iv1 d1 = envelope k iv2 d2 -> iv1 = iv2.
Proof.
  intros H1 H2 E. unfold envelope in E.
  apply (f_equal atob) in E.
  rewrite !atob_encodeOctets in E by apply fromCharCode_octets.
  injection E as E. apply (f_equal charCodes) in E.
  rewrite !charCodes_fromCharCode in E.
  apply (f_equal (firstn 12)) in E.
  now rewrite (firstn_prefix 12 _ _ H1), (firstn_prefix 12 _ _ H2) in E.
Qed.

End Cipher.

(** ** The small instances and their laws *)

Lemma bytes_eqb_spec (a b : Uint8Array) : Toy.bytes_eqb a b = true <-> a = b.
Proof.
  revert b. induction a as [|x a IH]; intros [|y b]; cbn [Toy.bytes_eqb];
    try (split; [discriminate|congruence]); [tauto|].
  rewrite andb_true_iff, IH. split.
  - intros [Hx ->]. apply Byte.byte_dec_bl in Hx. now subst.
  - intros [= -> ->]. split; [|reflexivity].
    now apply (Byte.byte_dec_lb (x := y)).
Qed.

Lemma unseal_seal (t p : Uint8Array) :
  length t = 16%nat -> Toy.unseal t (p ++ t) = Some p.
Proof.
  intros Ht. unfold Toy.unseal. rewrite length_app, Ht.
  replace (length p + 16 - 16)%nat with (length p) by lia.
  rewrite (skipn_prefix (length p) p t eq_refl).
  rewrite (firstn_prefix (length p) p t eq_refl).
  rewrite (proj2 (bytes_eqb_spec t t) eq_refl).
  now rewrite (proj2 (Nat.leb_le 16 (length p + 16)) ltac:(lia)).
Qed.


Lemma tag_length (k : CryptoKey) : length (Toy.tag k) = 16%nat.
Proof. unfold Toy.tag. now rewrite length_map, length_seq. Qed.

Lemma commitTag_length (k : CryptoKey) : length (Toy.commitTag k) = 16%nat.
Proof. unfold Toy.commitTag. now rewrite length_map, length_seq. Qed.


Lemma Toy_correct : AeadCorrect Toy.crypto.
Proof. intros k iv p. apply unseal_seal, tag_length. Qed.


(** Under a key of at most 15 bytes [committing] decrypts what it
    encrypted. *)
Lemma Toy_committing_opens (k iv p : Uint8Array) :
  (length k <= 15)%nat ->
  AES_GCM_decrypt (WebCrypto := Toy.committing) k iv
    (AES_GCM_encrypt (WebCrypto := Toy.committing) k iv p) = Some p.
Proof.
  intros Hk. cbn [AES_GCM_decrypt AES_GCM_encrypt Toy.committing].
  rewrite (proj2 (Nat.leb_le (length k) 15) Hk).
  apply unseal_seal, commitTag_length.
Qed.

(** ** Envelopes: encrypt and decrypt *)

Section Envelopes.
Context {W : WebCrypto} {Eng : Engine}.

(** Under a correct cipher, decrypting what [encrypt] returned yields the
    plaintext as [TextDecoder] reads its UTF-8 bytes. *)
Lemma decrypt_encrypt_decoded {L : AeadCorrect W} (this : CryptoManager)
    (w : World) (k : CryptoKey) (data : jsstring) :
  key this = Some k -> fits data = true ->
  bind (encrypt data) decrypt (this, w)
  = (Ok (TextDecoder_decode (TextEncoder_encode data)), (this, advance 12 w)).
Proof.
  intros Hk Hf. unfold bind at 1. rewrite (encrypt_fits this w k data Hk Hf).
  rewrite (decrypt_envelope this _ k k _ data Hk (draw_length 12 w)).
  now rewrite aead_correct.
Qed.

(** Data too long for the engine is not sealed at all. *)
Lemma decrypt_encrypt_too_long (this : CryptoManager) (w : World)
    (k : CryptoKey) (data : jsstring) :
  key this = Some k -> fits data = false ->
  bind (encrypt data) decrypt (this, w)
  = (Throw EncryptFailedError, (this, advance 12 w)).
Proof.
  intros Hk Hf. unfold bind at 1.
  now rewrite (encrypt_too_long this w k data Hk Hf).
Qed.

(** C5, as amended: for every key and every plaintext that is a well-formed
    string (no lone surrogate), does not start with U+FEFF and is short
    enough for the engine to pass the bytes of its envelope to
    String.fromCharCode, decrypt applied to the envelope encrypt returned
    yields exactly the plaintext. *)
Theorem decrypt_encrypt {L : AeadCorrect W} (this : CryptoManager)
    (w : World) (k : CryptoKey) (data : jsstring) :
  key this = Some k ->
  isWellFormed data = true -> startsWithBOM data = false ->
  fits data = true ->
  bind (encrypt data) decrypt (this, w) = (Ok data, (this, advance 12 w)).
Proof.
  intros Hk Hwf Hbom Hf.
  rewrite (decrypt_encrypt_decoded this w k data Hk Hf).
  now rewrite (TextDecoder_TextEncoder data Hwf Hbom).
Qed.


(** C7, as amended: for every key and every plaintext that is a
    well-formed string, does not start with U+FEFF and is short enough for
    the engine, two successive calls of encrypt whose nonces (twelve fresh
    random bytes each) differ return different envelopes; each envelope is
    the base64 of its nonce followed by the ciphertext, and both decrypt to
    the plaintext. *)
Theorem encrypt_twice_distinct {L : AeadCorrect W} (this : CryptoManager)
    (w : World) (k : CryptoKey) (data : jsstring) :
  key this = Some k ->
  isWellFormed data = true -> startsWithBOM data = false ->
  fits data = true ->
  draw 12 w <> draw 12 (advance 12 w) ->
  exists e1 e2 s2,
    bind (encrypt data)
         (fun e1 => bind (encrypt data) (fun e2 => ret (e1, e2))) (this, w)
    = (Ok (e1, e2), s2)
    /\ e1 <> e2
    /\ (exists c1, atob e1 = Ok (fromCharCode (draw 12 w ++ c1)))
    /\ (exists c2, atob e2 = Ok (fromCharCode (draw 12 (advance 12 w) ++ c2)))
    /\ fst (decrypt e1 s2) = Ok data
    /\ fst (decrypt e2 s2) = Ok data.
Proof.
  intros Hk Hwf Hbom Hf Hfresh.
  exists (envelope k (draw 12 w) data),
         (envelope k (draw 12 (advance 12 w)) data),
         (this, advance 12 (advance 12 w)).
  repeat split.
  - unfold bind. rewrite (encrypt_fits this w k data Hk Hf).
    now rewrite (encrypt_fits this _ k data Hk Hf).
  - intros E. apply Hfresh.
    apply (envelope_inj_iv k _ _ data data); auto using draw_length.
  - eexists. unfold envelope.
    apply atob_encodeOctets, fromCharCode_octets.
  - eexists. unfold envelope.
    apply atob_encodeOctets, fromCharCode_octets.
  - rewrite (decrypt_envelope this _ k k _ data Hk (draw_length 12 _)).
    now rewrite aead_correct, (TextDecoder_TextEncoder data Hwf Hbom).
  - rewrite (decrypt_envelope this _ k k _ data Hk (draw_length 12 _)).
    now rewrite aead_correct, (TextDecoder_TextEncoder data Hwf Hbom).
Qed.

End Envelopes.

Lemma decrypt_encrypt_witness :
  key Toy.manager = Some [x2a]
  /\ isWellFormed [71; 114; 252; 223; 101; 55357; 56832] = true
  /\ startsWithBOM [71; 114; 252; 223; 101; 55357; 56832] = false
  /\ fits [71; 114; 252; 223; 101; 55357; 56832] = true
  /\ bind (encrypt (W := Toy.crypto) [71; 114; 252; 223; 101; 55357; 56832])
          (decrypt (W := Toy.crypto)) (Toy.manager, Toy.world0)
     = (Ok [71; 114; 252; 223; 101; 55357; 56832],
        (Toy.manager, advance 12 Toy.world0)).
Proof.
  repeat (split; [reflexivity|]).
  apply (decrypt_encrypt (W := Toy.crypto) (L := Toy_correct)
           Toy.manager Toy.world0 [x2a]); reflexivity.
Defined.

(** C5 as stated fails: a lone surrogate comes back as U+FFFD. *)
Lemma decrypt_encrypt_lone_surrogate :
  fst (bind (encrypt (W := Toy.crypto) [55296])
              (decrypt (W := Toy.crypto))
         (Toy.manager, Toy.world0)) = Ok [65533]
  /\ fst (bind (encrypt (W := Toy.crypto) [55296])
              (decrypt (W := Toy.crypto))
            (Toy.manager, Toy.world0)) <> Ok [55296].
Proof.
  rewrite (decrypt_encrypt_decoded (W := Toy.crypto) (Eng := Toy.engine)
             (L := Toy_correct) Toy.manager Toy.world0 [x2a] [55296]
             eq_refl eq_refl).
  split; [reflexivity|discriminate].
Qed.

(** A leading U+FEFF is dropped by the decoder. *)
Lemma decrypt_encrypt_BOM :
  fst (bind (encrypt (W := Toy.crypto) [65279; 97; 98])
         (decrypt (W := Toy.crypto))
         (Toy.manager, Toy.world0)) = Ok [97; 98].
Proof.
  now rewrite (decrypt_encrypt_decoded (W := Toy.crypto) (Eng := Toy.engine)
                 (L := Toy_correct) Toy.manager Toy.world0 [x2a]
                 [65279; 97; 98] eq_refl eq_refl).
Qed.

(** A plaintext of 65509 letters makes an array of 65537 bytes, one more
    than the engine of the instance passes: encrypt throws 'Failed to
    encrypt data'. *)
Lemma encrypt_long_plaintext :
  fits (repeat 97 (N.to_nat 65509)) = false
  /\ fst (encrypt (W := Toy.crypto) (repeat 97 (N.to_nat 65509))
            (Toy.manager, Toy.world0))
     = Throw EncryptFailedError.
Proof.
  assert (Hf : fits (repeat 97 (N.to_nat 65509)) = false)
    by (vm_compute; reflexivity).
  split; [exact Hf|].
  now rewrite (encrypt_too_long (W := Toy.crypto) (Eng := Toy.engine)
                 Toy.manager Toy.world0 [x2a] _ eq_refl Hf).
Qed.


Lemma encrypt_twice_distinct_witness :
  key Toy.manager = Some [x2a]
  /\ isWellFormed (js "milk, eggs") = true
  /\ startsWithBOM (js "milk, eggs") = false
  /\ fits (js "milk, eggs") = true
  /\ draw 12 Toy.world0 <> draw 12 (advance 12 Toy.world0)
  /\ exists e1 e2 s2,
       bind (encrypt (W := Toy.crypto) (js "milk, eggs"))
            (fun e1 => bind (encrypt (W := Toy.crypto) (js "milk, eggs"))
                            (fun e2 => ret (e1, e2)))
            (Toy.manager, Toy.world0)
       = (Ok (e1, e2), s2)
       /\ e1 <> e2
       /\ (exists c1, atob e1 = Ok (fromCharCode (draw 12 Toy.world0 ++ c1)))
       /\ (exists c2,
             atob e2
             = Ok (fromCharCode (draw 12 (advance 12 Toy.world0) ++ c2)))
       /\ fst (decrypt (W := Toy.crypto) e1 s2) = Ok (js "milk, eggs")
       /\ fst (decrypt (W := Toy.crypto) e2 s2) = Ok (js "milk, eggs").
Proof.
  split; [reflexivity|]. split; [reflexivity|]. split; [reflexivity|].
  split; [reflexivity|].
  split; [vm_compute; discriminate|].
  apply (encrypt_twice_distinct (W := Toy.crypto) (L := Toy_correct)
           Toy.manager Toy.world0 [x2a]); try reflexivity.
  vm_compute. discriminate.
Defined.

(** C7 as stated fails: the two envelopes of a lone surrogate differ, but
    both decrypt to U+FFFD, not to the plaintext. *)
Lemma encrypt_twice_lone_surrogate :
  exists e1 e2 s2,
    bind (encrypt (W := Toy.crypto) [55296])
         (fun e1 => bind (encrypt (W := Toy.crypto) [55296])
                         (fun e2 => ret (e1, e2)))
         (Toy.manager, Toy.world0)
    = (Ok (e1, e2), s2)
    /\ e1 <> e2
    /\ fst (decrypt (W := Toy.crypto) e1 s2) = Ok [65533]
    /\ fst (decrypt (W := Toy.crypto) e2 s2) = Ok [65533]
    /\ fst (decrypt (W := Toy.crypto) e1 s2) <> Ok [55296].
Proof.
  do 3 eexists. split; [vm_compute; reflexivity|].
  split; [discriminate|].
  split; [vm_compute; reflexivity|].
  split; [vm_compute; reflexivity|].
  vm_compute. discriminate.
Qed.

(** ** Notes *)

Section Notes.
Context {W : WebCrypto} {Eng : Engine}.

(** C9: for every note whose [encrypted] flag is false or absent,
    decryptNote returns the note itself and changes nothing, whatever the
    key of the manager (also without one). *)
Theorem decryptNote_plain (n : Note) (s : State) :
  encrypted n = Some false \/ encrypted n = None ->
  decryptNote n s = (Ok n, s).
Proof.
  intros [E|E]; unfold decryptNote; rewrite E; reflexivity.
Qed.

Lemma utf8Stable_spec (t : jsstring) :
  utf8Stable t = true -> isWellFormed t = true /\ startsWithBOM t = false.
Proof.
  unfold utf8Stable. rewrite andb_true_iff, negb_true_iff. tauto.
Qed.

(** [encrypt] returns an envelope that opens to the plaintext. *)
Lemma encrypt_opens {L : AeadCorrect W} (this : CryptoManager) (w : World)
    (k : CryptoKey) (t : jsstring) :
  key this = Some k -> utf8Stable t = true -> fits t = true ->
  exists e, encrypt t (this, w) = (Ok e, (this, advance 12 w))
            /\ opens_to this e t.
Proof.
  intros Hk Ht Hf. apply utf8Stable_spec in Ht. destruct Ht as [Hwf Hbom].
  exists (envelope k (draw 12 w) t). split; [now apply encrypt_fits|].
  split.
  - destruct (envelope_nonempty k w t) as (c & r & E). rewrite E. discriminate.
  - intros w'.
    rewrite (decrypt_envelope this w' k k _ t Hk (draw_length 12 w)).
    now rewrite aead_correct, (TextDecoder_TextEncoder t Hwf Hbom).
Qed.

Lemma mapM_encrypt_opens {L : AeadCorrect W} (this : CryptoManager)
    (k : CryptoKey) (ts : list jsstring) :
  key this = Some k -> forallb utf8Stable ts = true ->
  forallb fits ts = true ->
  forall w, exists es w',
    mapM encrypt ts (this, w) = (Ok es, (this, w'))
    /\ Forall2 (opens_to this) es ts.
Proof.
  intros Hk. induction ts as [|t ts IH]; intros Hts Hfs w.
  - exists [], w. split; [reflexivity|constructor].
  - cbn [forallb] in Hts. apply andb_true_iff in Hts. destruct Hts as [Ht Hts].
    cbn [forallb] in Hfs. apply andb_true_iff in Hfs. destruct Hfs as [Hf Hfs].
    destruct (encrypt_opens this w k t Hk Ht Hf) as (e & Ee & He).
    destruct (IH Hts Hfs (advance 12 w)) as (es & w' & Ees & Hes).
    exists (e :: es), w'. split; [|now constructor].
    cbn [mapM]. unfold bind at 1. rewrite Ee.
    unfold bind at 1. rewrite Ees. reflexivity.
Qed.

Lemma mapM_decrypt_opens (this : CryptoManager) (es ts : list jsstring) :
  Forall2 (opens_to this) es ts ->
  forall w, mapM decrypt es (this, w) = (Ok ts, (this, w)).
Proof.
  induction 1 as [|e t es ts [_ He] _ IH]; intros w; [reflexivity|].
  cbn [mapM]. unfold bind at 1. rewrite He.
  unfold bind at 1. now rewrite IH.
Qed.

(** One step of the proof below: run the next [encrypt] of the goal. *)
Ltac run_encrypt Hk :=
  match goal with
  | |- context [encrypt ?d (?t, ?w0)] =>
      let e := fresh "e" in
      let Ee := fresh "Ee" in
      let Ho := fresh "Ho" in
      destruct (encrypt_opens t w0 _ d Hk ltac:(assumption)
                  ltac:(assumption))
        as (e & Ee & Ho);
      rewrite Ee; clear Ee;
      let Hne := fresh "Hne" in
      let Hd := fresh "Hd" in
      pose proof Ho as [Hne Hd];
      destruct e; [congruence|]; clear Hne
  end.

(** C8, as amended: for every note whose title, content and tags are
    well-formed strings that do not start with U+FEFF and are each short
    enough for the engine (the tag list may be empty or absent, the text
    non-ASCII), decryptNote applied to the result of encryptNote returns
    the note with its title, content and tags exactly as they were; every
    non-empty title and content and every tag has an envelope of its own,
    which decrypts on its own. *)
Theorem decryptNote_encryptNote {L : AeadCorrect W} (this : CryptoManager)
    (w : World) (k : CryptoKey) (note : Note) :
  key this = Some k -> noteStable note = true -> noteFits note = true ->
  exists enc dec s',
    encryptNote note (this, w) = (Ok enc, s')
    /\ encrypted enc = Some true
    /\ decryptNote enc s' = (Ok dec, s')
    /\ dec = with_encrypted note false
    /\ title dec = title note /\ content dec = content note
    /\ tags dec = tags note
    /\ field_sealed this (title note) (title enc)
    /\ field_sealed this (content note) (content enc)
    /\ tags_sealed this (tags note) (tags enc).
Proof.
  intros Hk Hst Hfit. destruct note as [i ti co ta pi ar cr up en].
  unfold noteStable in Hst. cbn [title content tags] in Hst.
  apply andb_true_iff in Hst. destruct Hst as [Hst Hta].
  apply andb_true_iff in Hst. destruct Hst as [Hti Hco].
  unfold noteFits in Hfit. cbn [title content tags] in Hfit.
  apply andb_true_iff in Hfit. destruct Hfit as [Hfit Hfta].
  apply andb_true_iff in Hfit. destruct Hfit as [Hfti Hfco].
  unfold encryptNote, decryptNote, field_sealed, tags_sealed.
  cbn [title content tags].
  destruct ti as [[|c1 t1]|]; destruct co as [[|c2 t2]|];
    destruct ta as [[|tg tgs]|]; cbn [optStable] in Hti, Hco;
    cbn [optFits] in Hfti, Hfco;
    unfold bind, ret, with_title, with_content, with_tags, with_encrypted;
    cbn [title content tags encrypted id pinned archived createdAt updatedAt];
    repeat (run_encrypt Hk;
            cbn [title content tags encrypted id pinned archived createdAt
                 updatedAt]);
    try match goal with
        | |- context [mapM encrypt ?l (?t, ?w0)] =>
            destruct (mapM_encrypt_opens t _ l Hk Hta Hfta w0)
              as (es & w' & Ees & Hes);
            rewrite Ees; clear Ees;
            pose proof (mapM_decrypt_opens t _ _ Hes) as Hds;
            pose proof Hes as Hes';
            destruct es; [inversion Hes'|]; clear Hes'
        end;
    cbn [title content tags encrypted id pinned archived createdAt updatedAt];
    do 3 eexists;
    (split; [reflexivity|]); (split; [reflexivity|]);
    cbn [title content tags encrypted id pinned archived createdAt updatedAt];
    repeat match goal with
           | H : forall w, decrypt ?e (_, w) = _ |- context [decrypt ?e _] =>
               rewrite H
           end;
    rewrite ?Hds;
    cbn [title content tags encrypted id pinned archived createdAt updatedAt];
    (split; [reflexivity|]);
    repeat (split; [reflexivity|]);
    repeat match goal with
           | |- _ /\ _ => split
           | |- exists _, Some _ = Some _ /\ _ =>
               eexists; split; [reflexivity|assumption]
           | |- _ = _ => reflexivity
           end.
Qed.

End Notes.

(** ** The vault methods, executed *)

(** The names of the items of one user are distinct: they differ in their
    first character. *)
Lemma keys_distinct (u u' : jsstring) :
  saltKeyOf u <> testKeyOf u' /\ saltKeyOf u <> vaultKeyOf u'
  /\ testKeyOf u <> vaultKeyOf u' /\ saltKeyOf u <> js "current_user"
  /\ testKeyOf u <> js "current_user" /\ vaultKeyOf u <> js "current_user".
Proof.
  repeat split; intros E; apply (f_equal (hd 0)) in E; vm_compute in E;
    discriminate.
Qed.

Section Vault.
Context {W : WebCrypto} {Eng : Engine}.

(** What the validation of a persisted probe returns under key [k]. *)
Lemma validate_probe (this : CryptoManager) (w : World) (probe : jsstring) :
  try_catch
    (bind (decrypt probe)
          (fun decrypted => ret (jsstring_eqb decrypted testMessage)))
    (fun _ => ret false) (this, w)
  = (Ok (match fst (decrypt probe (this, w)) with
         | Ok decrypted => jsstring_eqb decrypted testMessage
         | Throw _ => false
         end), (this, w)).
Proof.
  unfold try_catch, bind, ret.
  pose proof (decrypt_state probe (this, w)) as Hs.
  destruct (decrypt probe (this, w)) as [[d|err] s2]; cbn [fst snd] in *;
    now subst.
Qed.

(** Unfolds the monad and the state accessors, leaving the methods and
    the platform functions folded. *)
Ltac run :=
  cbv [try_catch bind ret throw getItem setItem removeItem getRandomValues
       get_key set_key set_userId deriveKey fst snd key userId].

(** [initialize] when a non-empty salt string is persisted and reads back
    as [saltArray]: the key is derived and kept; without a probe one is
    sealed and persisted, with a probe the result is its validation. *)
Lemma initialize_existing_salt (this : CryptoManager) (w : World)
    (passphrase u : jsstring) (c : N) (s' : jsstring) (saltArray : Uint8Array) :
  localStorage w !! saltKeyOf u = Some (c :: s') ->
  saltFromHex (c :: s') = Some saltArray ->
  let k := derivedKey passphrase saltArray in
  initialize passphrase u (this, w)
  = match localStorage w !! testKeyOf u with
    | Some (c' :: t') =>
        (Ok (match fst (decrypt (c' :: t') (unlocked k u, w)) with
             | Ok decrypted => jsstring_eqb decrypted testMessage
             | Throw _ => false
             end), (unlocked k u, w))
    | _ =>
        (Ok true,
         (unlocked k u,
          store (testKeyOf u) (envelope k (draw 12 w) testMessage)
            (advance 12 w)))
    end.
Proof.
  intros Hsalt Hparse k.
  unfold initialize. run. rewrite Hsalt. run. rewrite Hparse. run.
  fold (derivedKey passphrase saltArray). fold k. fold (unlocked k u).
  destruct (localStorage w !! testKeyOf u) as [[|c' t']|].
  - rewrite (encrypt_probe (unlocked k u) w k eq_refl).
    reflexivity.
  - pose proof (decrypt_state (c' :: t') (unlocked k u, w)) as Hs.
    destruct (decrypt (c' :: t') (unlocked k u, w)) as [[d|err] s2];
      cbn [fst snd] in *; now subst.
  - rewrite (encrypt_probe (unlocked k u) w k eq_refl).
    reflexivity.
Qed.

(** [initialize] when the persisted salt string does not read back:
    [match] returns [null], the TypeError is caught and the result is
    false; nothing changes. *)
Lemma initialize_unreadable_salt (this : CryptoManager) (w : World)
    (passphrase u : jsstring) (c : N) (s' : jsstring) :
  localStorage w !! saltKeyOf u = Some (c :: s') ->
  saltFromHex (c :: s') = None ->
  initialize passphrase u (this, w) = (Ok false, (this, w)).
Proof.
  intros Hsalt Hparse.
  unfold initialize. run. rewrite Hsalt. run. now rewrite Hparse.
Qed.

(** [initialize] and [createUserVault] catch whatever is thrown. *)
Lemma initialize_never_throws (passphrase u : jsstring) (s : State) :
  exists b s', initialize passphrase u s = (Ok b, s').
Proof.
  unfold initialize, try_catch.
  match goal with
  | |- context [match ?m s with _ => _ end] =>
      destruct (m s) as [[b|err] s']
  end; eauto.
Qed.

(** [initialize] without a persisted salt first persists a new one. *)
Lemma initialize_no_salt (this : CryptoManager) (w : World)
    (passphrase u : jsstring) :
  truthy (localStorage w !! saltKeyOf u) = false ->
  initialize passphrase u (this, w)
  = initialize passphrase u
      (this, store (saltKeyOf u) (saltToHex (draw 16 w)) (advance 16 w)).
Proof.
  intros Hsalt.
  destruct (saltToHex_nonempty (draw 16 w)) as (c & s' & E);
    [unfold draw; cbn; discriminate|].
  unfold initialize. run. cbn [store localStorage].
  rewrite lookup_insert_eq, E.
  destruct (localStorage w !! saltKeyOf u) as [[|c0 s0]|]; try discriminate;
    run; now rewrite E.
Qed.

Lemma draw_nonempty (n : nat) (w : World) : draw (S n) w <> [].
Proof. unfold draw. cbn [seq map]. discriminate. Qed.

Lemma testMessage_utf8 :
  TextDecoder_decode (TextEncoder_encode testMessage) = testMessage.
Proof. reflexivity. Qed.

(** [createUserVault] always succeeds and leaves [createdVault]. *)
Lemma createUserVault_run (this : CryptoManager) (w : World)
    (passphrase u : jsstring) :
  createUserVault passphrase u (this, w)
  = (Ok true,
     (unlocked (derivedKey passphrase (draw 16 w)) u,
      createdVault passphrase u w)).
Proof.
  set (saltArray := draw 16 w). set (k := derivedKey passphrase saltArray).
  assert (Hinit : initialize passphrase u (this, resalted u w)
                  = (Ok true,
                     (unlocked k u,
                      store (testKeyOf u) (createdProbe passphrase u w)
                        (advance 12 (resalted u w))))).
  { destruct (saltToHex_nonempty saltArray) as (c & s' & E);
      [apply draw_nonempty|].
    assert (Hsalt : localStorage (resalted u w) !! saltKeyOf u
                    = Some (c :: s')).
    { unfold resalted, store. cbn [localStorage].
      fold saltArray. now rewrite lookup_insert_eq, E. }
    assert (Hparse : saltFromHex (c :: s') = Some saltArray).
    { rewrite <- E. apply saltFromHex_saltToHex, draw_nonempty. }
    rewrite (initialize_existing_salt this _ passphrase u c s' saltArray
               Hsalt Hparse).
    assert (Htest : localStorage (resalted u w) !! testKeyOf u = None).
    { unfold resalted, store, advance, unstore. cbn [localStorage].
      rewrite lookup_insert_ne by apply keys_distinct.
      apply lookup_delete_eq. }
    now rewrite Htest. }
  unfold createUserVault. run.
  change (store (saltKeyOf u) _ (advance 16 _)) with (resalted u w).
  rewrite Hinit. reflexivity.
Qed.

(** The storage [createUserVault] leaves: the three items of the user are
    removed, then the new salt, the probe, the marker and the current user
    are written. *)
Lemma createdVault_storage (passphrase u : jsstring) (w : World) :
  localStorage (createdVault passphrase u w)
  = <[js "current_user" := u]>
      (<[vaultKeyOf u := js "true"]>
         (<[testKeyOf u := createdProbe passphrase u w]>
            (<[saltKeyOf u := saltToHex (draw 16 w)]>
               (delete (testKeyOf u) (delete (saltKeyOf u)
                  (delete (vaultKeyOf u) (localStorage w))))))).
Proof. reflexivity. Qed.

Lemma createdVault_lookup (passphrase u : jsstring) (w : World) :
  localStorage (createdVault passphrase u w) !! saltKeyOf u
  = Some (saltToHex (draw 16 w))
  /\ localStorage (createdVault passphrase u w) !! testKeyOf u
     = Some (createdProbe passphrase u w)
  /\ localStorage (createdVault passphrase u w) !! vaultKeyOf u
     = Some (js "true").
Proof.
  rewrite createdVault_storage.
  pose proof (keys_distinct u u) as (D1 & D2 & D3 & D4 & D5 & D6).
  repeat split.
  - rewrite lookup_insert_ne by now apply not_eq_sym.
    rewrite lookup_insert_ne by now apply not_eq_sym.
    rewrite lookup_insert_ne by now apply not_eq_sym.
    apply lookup_insert_eq.
  - rewrite lookup_insert_ne by now apply not_eq_sym.
    rewrite lookup_insert_ne by now apply not_eq_sym.
    apply lookup_insert_eq.
  - rewrite lookup_insert_ne by now apply not_eq_sym.
    apply lookup_insert_eq.
Qed.

Lemma createdProbe_nonempty (passphrase u : jsstring) (w : World) :
  exists c t, createdProbe passphrase u w = c :: t.
Proof. apply envelope_nonempty. Qed.

End Vault.

(** ** Unlocking and creating a vault *)

Section VaultClaims.
Context {W : WebCrypto} {Eng : Engine}.

(** C1, as amended: for every userId without a persisted salt, initialize
    does not fail: it draws 16 random bytes as a new salt, persists their
    hexadecimal form under app_salt_<userId>, derives the key from them and
    keeps it as the active key; when no validation probe is persisted
    either, it seals the validation constant under that key, persists the
    probe and returns true. *)
Theorem initialize_without_salt (this : CryptoManager) (w : World)
    (passphrase u : jsstring) :
  truthy (localStorage w !! saltKeyOf u) = false ->
  let saltArray := draw 16 w in
  let k := derivedKey passphrase saltArray in
  let w1 := store (saltKeyOf u) (saltToHex saltArray) (advance 16 w) in
  exists b w',
    initialize passphrase u (this, w) = (Ok b, (unlocked k u, w'))
    /\ length saltArray = 16%nat
    /\ localStorage w' !! saltKeyOf u = Some (saltToHex saltArray)
    /\ saltFromHex (saltToHex saltArray) = Some saltArray
    /\ (truthy (localStorage w !! testKeyOf u) = false ->
        b = true
        /\ w' = store (testKeyOf u) (envelope k (draw 12 w1) testMessage)
                  (advance 12 w1)).
Proof.
  intros Hno saltArray k w1.
  rewrite (initialize_no_salt this w passphrase u Hno). fold saltArray w1.
  destruct (saltToHex_nonempty saltArray) as (c & s' & E);
    [apply draw_nonempty|].
  assert (Hsalt : localStorage w1 !! saltKeyOf u = Some (c :: s')).
  { unfold w1, store. cbn [localStorage]. now rewrite lookup_insert_eq, E. }
  assert (Hparse : saltFromHex (c :: s') = Some saltArray).
  { rewrite <- E. apply saltFromHex_saltToHex, draw_nonempty. }
  rewrite (initialize_existing_salt this w1 passphrase u c s' saltArray
             Hsalt Hparse).
  assert (Htest : localStorage w1 !! testKeyOf u = localStorage w !! testKeyOf u).
  { unfold w1, store, advance. cbn [localStorage].
    apply lookup_insert_ne, keys_distinct. }
  rewrite Htest, <- E in *.
  fold k.
  destruct (localStorage w !! testKeyOf u) as [[|c' t']|] eqn:Ep;
    do 2 eexists; (split; [reflexivity|]);
    (split; [apply draw_length|]);
    (split; [first [exact Hsalt
                   | unfold store; cbn [localStorage];
                     rewrite lookup_insert_ne by (apply not_eq_sym, keys_distinct);
                     exact Hsalt]|]);
    (split; [exact Hparse|]); cbn [truthy]; intros Hp;
    first [discriminate | split; reflexivity].
Qed.

(** C2, what the code does: when a salt and a probe are persisted and the
    probe does not decrypt to the validation constant under the key derived
    from the passphrase, initialize returns false without throwing, but the
    derived key stays in the manager: isInitialized returns true and encrypt
    runs with that key. It does not throw 'Crypto not initialized': it
    returns the envelope under that key for every plaintext short enough
    for the engine, and throws 'Failed to encrypt data' for a longer one. *)
Theorem initialize_failure_keeps_key (this : CryptoManager) (w : World)
    (passphrase u : jsstring) (saltArray : Uint8Array) (probe : jsstring) :
  saltArray <> [] ->
  localStorage w !! saltKeyOf u = Some (saltToHex saltArray) ->
  localStorage w !! testKeyOf u = Some probe -> probe <> [] ->
  let k := derivedKey passphrase saltArray in
  fst (decrypt probe (unlocked k u, w)) <> Ok testMessage ->
  initialize passphrase u (this, w) = (Ok false, (unlocked k u, w))
  /\ fst (isInitialized (unlocked k u, w)) = Ok true
  /\ forall data,
       encrypt data (unlocked k u, w)
       = (if fits data then Ok (envelope k (draw 12 w) data)
          else Throw EncryptFailedError, (unlocked k u, advance 12 w)).
Proof.
  intros Hne Hsalt Hprobe Hpne k Hfail.
  destruct (saltToHex_nonempty saltArray Hne) as (c & s' & E).
  rewrite E in Hsalt.
  assert (Hparse : saltFromHex (c :: s') = Some saltArray)
    by (rewrite <- E; now apply saltFromHex_saltToHex).
  rewrite (initialize_existing_salt this w passphrase u c s' saltArray
             Hsalt Hparse).
  rewrite Hprobe. destruct probe as [|c' t']; [congruence|]. fold k.
  repeat split.
  - destruct (fst (decrypt (c' :: t') (unlocked k u, w))) as [d|err];
      [|reflexivity].
    unfold jsstring_eqb. rewrite bool_decide_eq_false_2; [reflexivity|].
    intros ->. now apply Hfail.
  - intros data. exact (encrypt_run (unlocked k u) w k data eq_refl).
Qed.

(** C3: for every unlock attempt on a vault whose salt is persisted and
    whose validation probe is absent, initialize seals the validation
    constant under the key derived from the candidate passphrase and the
    salt, persists that envelope as the probe and returns true; when a
    probe is persisted nothing is written and the result is true only if
    that probe decrypts to the constant. *)
Theorem initialize_bootstraps_probe (this : CryptoManager) (w : World)
    (passphrase u : jsstring) (saltArray : Uint8Array) :
  saltArray <> [] ->
  localStorage w !! saltKeyOf u = Some (saltToHex saltArray) ->
  let k := derivedKey passphrase saltArray in
  (truthy (localStorage w !! testKeyOf u) = false ->
   initialize passphrase u (this, w)
   = (Ok true,
      (unlocked k u,
       store (testKeyOf u) (envelope k (draw 12 w) testMessage)
         (advance 12 w))))
  /\ (forall probe,
        localStorage w !! testKeyOf u = Some probe -> probe <> [] ->
        exists b,
          initialize passphrase u (this, w) = (Ok b, (unlocked k u, w))
          /\ (b = true <->
              fst (decrypt probe (unlocked k u, w)) = Ok testMessage)).
Proof.
  intros Hne Hsalt k.
  destruct (saltToHex_nonempty saltArray Hne) as (c & s' & E).
  rewrite E in Hsalt.
  assert (Hparse : saltFromHex (c :: s') = Some saltArray)
    by (rewrite <- E; now apply saltFromHex_saltToHex).
  rewrite (initialize_existing_salt this w passphrase u c s' saltArray
             Hsalt Hparse).
  fold k. split.
  - intros Hno.
    destruct (localStorage w !! testKeyOf u) as [[|c' t']|];
      [reflexivity|discriminate|reflexivity].
  - intros probe Hprobe Hpne. rewrite Hprobe.
    destruct probe as [|c' t']; [congruence|].
    eexists. split; [reflexivity|].
    destruct (fst (decrypt (c' :: t') (unlocked k u, w))) as [d|err].
    + unfold jsstring_eqb. rewrite bool_decide_eq_true. split; congruence.
    + split; discriminate.
Qed.

(** The probe written by [initialize] validates the key that sealed it. *)
Lemma probe_validates {L : AeadCorrect W} (k : CryptoKey) (u : jsstring)
    (w0 w : World) :
  fst (decrypt (envelope k (draw 12 w0) testMessage) (unlocked k u, w))
  = Ok testMessage.
Proof.
  rewrite (decrypt_envelope (unlocked k u) w k k _ testMessage eq_refl
             (draw_length 12 w0)).
  now rewrite aead_correct, testMessage_utf8.
Qed.

(** C4: for every passphrase and userId, createUserVault succeeds, and a
    later initialize with the same passphrase and userId on the storage it
    left succeeds and holds the same key: both derive it from the
    passphrase and the salt persisted at creation. *)
Theorem unlock_after_createUserVault {L : AeadCorrect W}
    (this : CryptoManager) (w : World) (passphrase u : jsstring) :
  exists k w1,
    createUserVault passphrase u (this, w) = (Ok true, (unlocked k u, w1))
    /\ k = derivedKey passphrase (draw 16 w)
    /\ localStorage w1 !! saltKeyOf u = Some (saltToHex (draw 16 w))
    /\ forall this2 w2,
         localStorage w2 = localStorage w1 ->
         initialize passphrase u (this2, w2) = (Ok true, (unlocked k u, w2)).
Proof.
  do 2 eexists. split; [apply createUserVault_run|].
  split; [reflexivity|].
  destruct (createdVault_lookup passphrase u w) as (Hs & Ht & _).
  split; [exact Hs|].
  intros this2 w2 Hw2. rewrite <- Hw2 in Hs, Ht.
  destruct (saltToHex_nonempty (draw 16 w)) as (c & s' & E);
    [apply draw_nonempty|].
  rewrite E in Hs.
  assert (Hparse : saltFromHex (c :: s') = Some (draw 16 w))
    by (rewrite <- E; apply saltFromHex_saltToHex, draw_nonempty).
  rewrite (initialize_existing_salt this2 w2 passphrase u c s' _ Hs Hparse).
  rewrite Ht.
  pose proof (probe_validates (derivedKey passphrase (draw 16 w)) u
                (resalted u w) w2) as Hv.
  fold (createdProbe passphrase u w) in Hv.
  destruct (createdProbe_nonempty passphrase u w) as (c' & t' & Ee).
  rewrite Ee in *. now rewrite Hv.
Qed.



End VaultClaims.

(** ** The statements on the small instance *)

Lemma decryptNote_plain_witness :
  (encrypted Toy.note0 = Some false \/ encrypted Toy.note0 = None)
  /\ decryptNote (W := Toy.crypto) Toy.note0 (constructor, Toy.world0)
     = (Ok Toy.note0, (constructor, Toy.world0)).
Proof.
  split; [right; reflexivity|].
  apply (decryptNote_plain (W := Toy.crypto)). right. reflexivity.
Defined.

Lemma decryptNote_encryptNote_witness :
  noteStable Toy.note0 = true
  /\ exists enc dec s',
       encryptNote (W := Toy.crypto) Toy.note0 (Toy.manager, Toy.world0)
       = (Ok enc, s')
       /\ encrypted enc = Some true
       /\ decryptNote (W := Toy.crypto) enc s' = (Ok dec, s')
       /\ dec = with_encrypted Toy.note0 false
       /\ title dec = title Toy.note0 /\ content dec = content Toy.note0
       /\ tags dec = tags Toy.note0
       /\ field_sealed (W := Toy.crypto) Toy.manager
            (title Toy.note0) (title enc)
       /\ field_sealed (W := Toy.crypto) Toy.manager
            (content Toy.note0) (content enc)
       /\ tags_sealed (W := Toy.crypto) Toy.manager
            (tags Toy.note0) (tags enc).
Proof.
  split; [reflexivity|].
  apply (decryptNote_encryptNote (W := Toy.crypto) (L := Toy_correct)
           Toy.manager Toy.world0 [x2a] Toy.note0); reflexivity.
Defined.

(** C8 as stated fails: a title that is a lone surrogate comes back as
    U+FFFD. *)
Lemma decryptNote_encryptNote_lone_surrogate :
  fst (bind (encryptNote (W := Toy.crypto) Toy.noteSurrogate)
         (decryptNote (W := Toy.crypto)) (Toy.manager, Toy.world0))
  = Ok (with_encrypted (with_title Toy.noteSurrogate [65533]) false)
  /\ title (with_encrypted (with_title Toy.noteSurrogate [65533]) false)
     <> title Toy.noteSurrogate.
Proof. split; [vm_compute; reflexivity|discriminate]. Qed.

(** A title that starts with U+FEFF comes back without it. *)
Lemma decryptNote_encryptNote_BOM :
  fst (bind (encryptNote (W := Toy.crypto) Toy.noteBOM)
         (decryptNote (W := Toy.crypto)) (Toy.manager, Toy.world0))
  = Ok (with_encrypted (with_title Toy.noteBOM (js "Groceries")) false).
Proof. vm_compute. reflexivity. Qed.

(** C1 as stated fails: on empty storage initialize does not fail; it
    returns true, keeps a key and persists a salt and a probe. *)
Lemma initialize_creates_vault :
  localStorage Toy.world0 !! saltKeyOf Toy.u1 = None
  /\ fst (initialize (W := Toy.crypto) Toy.pw Toy.u1 (constructor, Toy.world0))
     = Ok true
  /\ key (fst (snd (initialize (W := Toy.crypto) Toy.pw Toy.u1
                      (constructor, Toy.world0))))
     = Some (derivedKey (W := Toy.crypto) Toy.pw (draw 16 Toy.world0))
  /\ localStorage
       (snd (snd (initialize (W := Toy.crypto) Toy.pw Toy.u1
                    (constructor, Toy.world0)))) !! saltKeyOf Toy.u1
     = Some (js "030a11181f262d343b424950575e656c")
  /\ localStorage
       (snd (snd (initialize (W := Toy.crypto) Toy.pw Toy.u1
                    (constructor, Toy.world0)))) !! testKeyOf Toy.u1
     <> None.
Proof.
  split; [reflexivity|].
  split; [vm_compute; reflexivity|].
  split; [vm_compute; reflexivity|].
  split; [vm_compute; reflexivity|].
  vm_compute. discriminate.
Qed.

Lemma initialize_without_salt_witness :
  truthy (localStorage Toy.world0 !! saltKeyOf Toy.u1) = false
  /\ exists b w',
       initialize (W := Toy.crypto) Toy.pw Toy.u1 (constructor, Toy.world0)
       = (Ok b,
          (unlocked (derivedKey (W := Toy.crypto) Toy.pw (draw 16 Toy.world0))
             Toy.u1, w'))
       /\ length (draw 16 Toy.world0) = 16%nat
       /\ localStorage w' !! saltKeyOf Toy.u1
          = Some (saltToHex (draw 16 Toy.world0))
       /\ saltFromHex (saltToHex (draw 16 Toy.world0))
          = Some (draw 16 Toy.world0)
       /\ (truthy (localStorage Toy.world0 !! testKeyOf Toy.u1) = false ->
           b = true
           /\ w' = store (testKeyOf Toy.u1)
                     (envelope (W := Toy.crypto)
                        (derivedKey (W := Toy.crypto) Toy.pw
                           (draw 16 Toy.world0))
                        (draw 12
                           (store (saltKeyOf Toy.u1)
                              (saltToHex (draw 16 Toy.world0))
                              (advance 16 Toy.world0)))
                        testMessage)
                     (advance 12
                        (store (saltKeyOf Toy.u1)
                           (saltToHex (draw 16 Toy.world0))
                           (advance 16 Toy.world0)))).
Proof.
  split; [reflexivity|].
  apply (initialize_without_salt (W := Toy.crypto) constructor Toy.world0
           Toy.pw Toy.u1).
  reflexivity.
Defined.

Lemma initialize_failure_keeps_key_witness :
  draw 16 Toy.world0 <> []
  /\ localStorage Toy.vault0 !! saltKeyOf Toy.u1
     = Some (saltToHex (draw 16 Toy.world0))
  /\ localStorage Toy.vault0 !! testKeyOf Toy.u1
     = Some (createdProbe (W := Toy.crypto) Toy.pw Toy.u1 Toy.world0)
  /\ fst (decrypt (W := Toy.crypto)
            (createdProbe (W := Toy.crypto) Toy.pw Toy.u1 Toy.world0)
            (unlocked (derivedKey (W := Toy.crypto) Toy.wrongPw
                         (draw 16 Toy.world0)) Toy.u1, Toy.vault0))
     <> Ok testMessage
  /\ initialize (W := Toy.crypto) Toy.wrongPw Toy.u1 (constructor, Toy.vault0)
     = (Ok false,
        (unlocked (derivedKey (W := Toy.crypto) Toy.wrongPw
                     (draw 16 Toy.world0)) Toy.u1, Toy.vault0))
  /\ fst (isInitialized
            (unlocked (derivedKey (W := Toy.crypto) Toy.wrongPw
                         (draw 16 Toy.world0)) Toy.u1, Toy.vault0))
     = Ok true
  /\ forall data,
       encrypt (W := Toy.crypto) data
         (unlocked (derivedKey (W := Toy.crypto) Toy.wrongPw
                      (draw 16 Toy.world0)) Toy.u1, Toy.vault0)
       = (if fits data
          then Ok (envelope (W := Toy.crypto)
                     (derivedKey (W := Toy.crypto) Toy.wrongPw
                        (draw 16 Toy.world0))
                     (draw 12 Toy.vault0) data)
          else Throw EncryptFailedError,
          (unlocked (derivedKey (W := Toy.crypto) Toy.wrongPw
                       (draw 16 Toy.world0)) Toy.u1,
           advance 12 Toy.vault0)).
Proof.
  split; [vm_compute; discriminate|].
  split; [vm_compute; reflexivity|].
  split; [vm_compute; reflexivity|].
  split; [vm_compute; discriminate|].
  apply (initialize_failure_keeps_key (W := Toy.crypto) constructor
           Toy.vault0 Toy.wrongPw Toy.u1 (draw 16 Toy.world0)
           (createdProbe (W := Toy.crypto) Toy.pw Toy.u1 Toy.world0)).
  - vm_compute. discriminate.
  - vm_compute. reflexivity.
  - vm_compute. reflexivity.
  - vm_compute. discriminate.
  - vm_compute. discriminate.
Defined.

Lemma initialize_bootstraps_probe_witness :
  [x01; x02] <> []
  /\ localStorage Toy.saltOnly !! saltKeyOf Toy.u1
     = Some (saltToHex [x01; x02])
  /\ (truthy (localStorage Toy.saltOnly !! testKeyOf Toy.u1) = false ->
      initialize (W := Toy.crypto) Toy.pw Toy.u1 (constructor, Toy.saltOnly)
      = (Ok true,
         (unlocked (derivedKey (W := Toy.crypto) Toy.pw [x01; x02]) Toy.u1,
          store (testKeyOf Toy.u1)
            (envelope (W := Toy.crypto)
               (derivedKey (W := Toy.crypto) Toy.pw [x01; x02])
               (draw 12 Toy.saltOnly) testMessage)
            (advance 12 Toy.saltOnly))))
  /\ (forall probe,
        localStorage Toy.saltOnly !! testKeyOf Toy.u1 = Some probe ->
        probe <> [] ->
        exists b,
          initialize (W := Toy.crypto) Toy.pw Toy.u1
            (constructor, Toy.saltOnly)
          = (Ok b,
             (unlocked (derivedKey (W := Toy.crypto) Toy.pw [x01; x02])
                Toy.u1, Toy.saltOnly))
          /\ (b = true <->
              fst (decrypt (W := Toy.crypto) probe
                     (unlocked (derivedKey (W := Toy.crypto) Toy.pw
                                  [x01; x02]) Toy.u1, Toy.saltOnly))
              = Ok testMessage)).
Proof.
  split; [discriminate|].
  split; [vm_compute; reflexivity|].
  apply (initialize_bootstraps_probe (W := Toy.crypto) constructor
           Toy.saltOnly Toy.pw Toy.u1 [x01; x02]).
  - discriminate.
  - vm_compute. reflexivity.
Defined.

Lemma unlock_after_createUserVault_witness :
  exists k w1,
    createUserVault (W := Toy.crypto) Toy.pw Toy.u1 (constructor, Toy.world0)
    = (Ok true, (unlocked k Toy.u1, w1))
    /\ k = derivedKey (W := Toy.crypto) Toy.pw (draw 16 Toy.world0)
    /\ localStorage w1 !! saltKeyOf Toy.u1
       = Some (saltToHex (draw 16 Toy.world0))
    /\ forall this2 w2,
         localStorage w2 = localStorage w1 ->
         initialize (W := Toy.crypto) Toy.pw Toy.u1 (this2, w2)
         = (Ok true, (unlocked k Toy.u1, w2)).
Proof.
  exact (unlock_after_createUserVault (W := Toy.crypto) (L := Toy_correct)
           constructor Toy.world0 Toy.pw Toy.u1).
Defined.


(** After [createUserVault] replaced the salt of 'u1', a note field sealed
    under the key of the old salt no longer decrypts, also with the
    passphrase that sealed it. *)
Lemma old_envelope_lost :
  fst (bind (initialize (W := Toy.crypto) Toy.pw Toy.u1)
         (fun _ => bind (encrypt (W := Toy.crypto) (js "milk, eggs"))
            (fun e => bind (createUserVault (W := Toy.crypto) Toy.pw Toy.u1)
               (fun _ => bind (initialize (W := Toy.crypto) Toy.pw Toy.u1)
                  (fun _ => decrypt (W := Toy.crypto) e))))
         (constructor, Toy.saltOnly))
  = Throw DecryptFailedError.
Proof. vm_compute. reflexivity. Qed.


(** * Further properties of the code *)

(** ** Salt strings, envelopes and the locked manager *)

Lemma saltToHex_length (bs : Uint8Array) :
  length (saltToHex bs) = (2 * length bs)%nat.
Proof.
  unfold saltToHex. induction bs as [|b bs IH]; [reflexivity|].
  cbn [map concat]. rewrite hex_pair_of_byte. cbn [app length].
  rewrite IH. lia.
Qed.

Lemma hex_pair_digits (b : byte) :
  hexValue (hexDigit (Byte.to_N b / 16)) = Some (Byte.to_N b / 16)
  /\ hexValue (hexDigit (Byte.to_N b mod 16)) = Some (Byte.to_N b mod 16)
  /\ isUpperAZ (hexDigit (Byte.to_N b / 16)) = false
  /\ isUpperAZ (hexDigit (Byte.to_N b mod 16)) = false.
Proof. destruct b; repeat split; reflexivity. Qed.

(** X1: the salt string written by initialize and createUserVault has two
    characters per byte, all of them digits or lower-case letters a-f, and
    the conversion back to a Uint8Array returns the bytes. *)
Theorem salt_hex_round_trip (saltArray : Uint8Array) :
  saltArray <> [] ->
  length (saltToHex saltArray) = (2 * length saltArray)%nat
  /\ Forall (fun c => hexValue c <> None /\ isUpperAZ c = false)
       (saltToHex saltArray)
  /\ saltFromHex (saltToHex saltArray) = Some saltArray.
Proof.
  intros Hne. split; [apply saltToHex_length|].
  split; [|now apply saltFromHex_saltToHex].
  clear Hne. unfold saltToHex.
  induction saltArray as [|b bs IH]; [constructor|].
  cbn [map concat]. rewrite hex_pair_of_byte. cbn [app].
  destruct (hex_pair_digits b) as (H1 & H2 & H3 & H4).
  constructor; [split; [rewrite H1; discriminate|exact H3]|].
  constructor; [split; [rewrite H2; discriminate|exact H4]|].
  exact IH.
Qed.

Lemma salt_hex_round_trip_witness :
  [x00; x0a; xff] <> []
  /\ length (saltToHex [x00; x0a; xff]) = (2 * length [x00; x0a; xff])%nat
  /\ Forall (fun c => hexValue c <> None /\ isUpperAZ c = false)
       (saltToHex [x00; x0a; xff])
  /\ saltFromHex (saltToHex [x00; x0a; xff]) = Some [x00; x0a; xff].
Proof.
  split; [discriminate|].
  apply (salt_hex_round_trip [x00; x0a; xff]). discriminate.
Defined.

(** The characters of a base64 encoding, and its length. *)
Lemma encodeOctets_format (l : list N) :
  Forall (fun c => c < 256) l ->
  Forall (fun c => b64val c <> None \/ c = 61) (encodeOctets l)
  /\ N.of_nat (length (encodeOctets l)) mod 4 = 0.
Proof.
  intros Hl. pose proof (octetSextets_bound l Hl) as Hb.
  pose proof (octetSextets_length l) as Hlen. cbv zeta in Hlen.
  unfold encodeOctets. split.
  - apply Forall_app. split.
    + clear Hlen. induction Hb as [|v vs Hv _ IH]; [constructor|].
      cbn [map]. constructor; [|exact IH].
      left. rewrite (b64val_b64char v Hv). discriminate.
    + destruct (padding_cases (length l)) as [[_ Hp]|[[_ Hp]|[_ Hp]]];
        rewrite Hp; repeat constructor; now right.
  - rewrite length_app, length_map.
    destruct (padding_cases (length l)) as [[Hr Hp]|[[Hr Hp]|[Hr Hp]]];
      cbv zeta in Hr; rewrite Hp; cbn [length]; lia.
Qed.

Section Locked.
Context {W : WebCrypto} {Eng : Engine}.

(** X2: with a key, encrypt draws exactly twelve random bytes and leaves
    the manager and localStorage as they are, whatever the outcome. When
    the plaintext is short enough for the engine (the 12 bytes of the
    nonce, its UTF-8 bytes and the 16 bytes of the tag are within the
    argument limit) it returns a non-empty string of base64 characters and
    [=] whose length is a multiple of four; otherwise it throws 'Failed to
    encrypt data'. *)
Theorem encrypt_envelope_format (this : CryptoManager) (w : World)
    (k : CryptoKey) (data : jsstring) :
  key this = Some k ->
  snd (encrypt data (this, w)) = (this, advance 12 w)
  /\ localStorage (advance 12 w) = localStorage w
  /\ (fits data = true ->
      exists e,
        fst (encrypt data (this, w)) = Ok e
        /\ e <> []
        /\ Forall (fun c => b64val c <> None \/ c = 61) e
        /\ N.of_nat (length e) mod 4 = 0)
  /\ (fits data = false ->
      fst (encrypt data (this, w)) = Throw EncryptFailedError).
Proof.
  intros Hk. rewrite (encrypt_run this w k data Hk). cbn [fst snd].
  split; [reflexivity|]. split; [reflexivity|]. split.
  - intros ->. exists (envelope k (draw 12 w) data).
    split; [reflexivity|]. split.
    + destruct (envelope_nonempty k w data) as (c & t & E). rewrite E.
      discriminate.
    + apply encodeOctets_format, fromCharCode_octets.
  - now intros ->.
Qed.

(** X3: after clear() the manager is locked: isInitialized returns false,
    encrypt and decrypt throw 'Crypto not initialized' without drawing
    random bytes, and localStorage and the userId of the manager are
    untouched. *)
Theorem clear_locks (s : State) (data e : jsstring) :
  exists s',
    clear s = (Ok tt, s')
    /\ snd s' = snd s /\ userId (fst s') = userId (fst s)
    /\ fst (isInitialized s') = Ok false
    /\ encrypt data s' = (Throw NotInitializedError, s')
    /\ decrypt e s' = (Throw NotInitializedError, s')
    /\ clear s' = (Ok tt, s').
Proof.
  destruct s as [this w].
  exists ({| key := None; userId := userId this |}, w).
  repeat split.
Qed.

(** X4: decrypt changes neither the manager nor the world, and the only
    errors it throws are 'Crypto not initialized', exactly when the manager
    has no key, and 'Failed to decrypt data'. *)
Theorem decrypt_errors (e : jsstring) (s : State) :
  snd (decrypt e s) = s
  /\ (key (fst s) = None -> fst (decrypt e s) = Throw NotInitializedError)
  /\ (key (fst s) <> None ->
      (exists data, fst (decrypt e s) = Ok data)
      \/ fst (decrypt e s) = Throw DecryptFailedError).
Proof.
  split; [apply decrypt_state|]. destruct s as [this w]. cbn [fst].
  split.
  - intros Hk. now rewrite (decrypt_no_key this w e Hk).
  - intros Hk. unfold decrypt, bind, get_key, try_catch. cbn [fst snd].
    destruct (key this) as [k|]; [|congruence].
    destruct (atob e) as [bin|err]; [|right; reflexivity].
    destruct (AES_GCM_decrypt k _ _); [left; eauto|right; reflexivity].
Qed.

End Locked.

Lemma encrypt_envelope_format_witness :
  key Toy.manager = Some [x2a]
  /\ snd (encrypt (W := Toy.crypto) [55296; 10] (Toy.manager, Toy.world0))
     = (Toy.manager, advance 12 Toy.world0)
  /\ localStorage (advance 12 Toy.world0) = localStorage Toy.world0
  /\ (fits [55296; 10] = true ->
      exists e,
        fst (encrypt (W := Toy.crypto) [55296; 10] (Toy.manager, Toy.world0))
        = Ok e
        /\ e <> []
        /\ Forall (fun c => b64val c <> None \/ c = 61) e
        /\ N.of_nat (length e) mod 4 = 0)
  /\ (fits [55296; 10] = false ->
      fst (encrypt (W := Toy.crypto) [55296; 10] (Toy.manager, Toy.world0))
      = Throw EncryptFailedError).
Proof.
  split; [reflexivity|].
  apply (encrypt_envelope_format (W := Toy.crypto) Toy.manager Toy.world0
           [x2a]).
  reflexivity.
Defined.

Lemma decrypt_errors_witness :
  snd (decrypt (W := Toy.crypto) (js "abc") (constructor, Toy.world0))
  = (constructor, Toy.world0)
  /\ (key (fst (constructor, Toy.world0)) = None ->
      fst (decrypt (W := Toy.crypto) (js "abc") (constructor, Toy.world0))
      = Throw NotInitializedError)
  /\ (key (fst (constructor, Toy.world0)) <> None ->
      (exists data,
         fst (decrypt (W := Toy.crypto) (js "abc") (constructor, Toy.world0))
         = Ok data)
      \/ fst (decrypt (W := Toy.crypto) (js "abc") (constructor, Toy.world0))
         = Throw DecryptFailedError).
Proof.
  exact (decrypt_errors (W := Toy.crypto) (js "abc") (constructor, Toy.world0)).
Defined.

(** ** Strings that are not envelopes *)

Lemma sextets_invalid (s : jsstring) (c : N) :
  In c s -> b64val c = None -> sextets s = None.
Proof.
  induction s as [|d s IH]; intros Hin Hc; [destruct Hin|].
  cbn [sextets]. destruct Hin as [->|Hin].
  - now rewrite Hc.
  - rewrite (IH Hin Hc). now destruct (b64val d).
Qed.

Lemma stripPadding_keeps (s : jsstring) (c : N) :
  In c s -> c <> 61 -> In c (stripPadding s).
Proof.
  intros Hin Hc. unfold stripPadding.
  destruct (N.of_nat (length s) mod 4 =? 0); [|exact Hin].
  apply in_rev in Hin.
  destruct (rev s) as [|c1 [|c2 r]] eqn:E;
    try (apply in_rev; rewrite E; exact Hin).
  destruct (N.eqb_spec c1 61) as [->|H1];
    [|apply in_rev; rewrite E; exact Hin].
  destruct Hin as [Hin|Hin]; [congruence|].
  destruct (N.eqb_spec c2 61) as [->|H2].
  - destruct Hin as [Hin|Hin]; [congruence|]. now apply in_rev in Hin.
  - apply in_rev. now rewrite rev_involutive.
Qed.

(** [atob] throws on a string with a character that is neither in the
    alphabet nor white space nor [=]. *)
Lemma atob_invalid (s : jsstring) (c : N) :
  In c s -> b64val c = None -> isAsciiWhitespace c = false -> c <> 61 ->
  atob s = Throw InvalidCharacterError.
Proof.
  intros Hin Hv Hw Hp. unfold atob.
  assert (Hd : In c (stripPadding
                       (List.filter (fun c => negb (isAsciiWhitespace c)) s))).
  { apply stripPadding_keeps; [|exact Hp].
    apply List.filter_In. split; [exact Hin|now rewrite Hw]. }
  rewrite (sextets_invalid _ c Hd Hv).
  now destruct (_ =? 1).
Qed.

(** X5: decrypt given a string that holds a character outside the base64
    alphabet, white space and [=] (such as a field stored in the clear)
    throws 'Failed to decrypt data' under every key, before the cipher is
    called, and changes nothing. *)
Theorem decrypt_rejects_non_base64 {W : WebCrypto} (this : CryptoManager)
    (w : World) (k : CryptoKey) (e : jsstring) (c : N) :
  key this = Some k ->
  In c e -> b64val c = None -> isAsciiWhitespace c = false -> c <> 61 ->
  decrypt e (this, w) = (Throw DecryptFailedError, (this, w)).
Proof.
  intros Hk Hin Hv Hw Hp. unfold decrypt, bind, get_key, try_catch.
  cbn [fst snd]. rewrite Hk.
  now rewrite (atob_invalid e c Hin Hv Hw Hp).
Qed.

Lemma decrypt_rejects_non_base64_witness :
  key Toy.manager = Some [x2a]
  /\ In 44 (js "milk, eggs") /\ b64val 44 = None
  /\ isAsciiWhitespace 44 = false /\ 44 <> 61
  /\ decrypt (W := Toy.crypto) (js "milk, eggs") (Toy.manager, Toy.world0)
     = (Throw DecryptFailedError, (Toy.manager, Toy.world0)).
Proof.
  split; [reflexivity|].
  split; [vm_compute; tauto|].
  split; [reflexivity|]. split; [reflexivity|]. split; [discriminate|].
  apply (decrypt_rejects_non_base64 (W := Toy.crypto) Toy.manager Toy.world0
           [x2a] (js "milk, eggs") 44).
  - reflexivity.
  - vm_compute. tauto.
  - reflexivity.
  - reflexivity.
  - discriminate.
Defined.

(** ** More on the note codec *)

Section NotesMore.
Context {W : WebCrypto} {Eng : Engine}.

Ltac note_fields :=
  cbn [title content tags encrypted id pinned archived createdAt updatedAt].

Lemma fits_empty : fits [] = true.
Proof. apply fits_short. vm_compute. discriminate. Qed.

(** [mapM encrypt] with a key: it returns as many envelopes as strings when
    all of them are short enough, and throws 'Failed to encrypt data'
    otherwise. *)
Lemma mapM_encrypt_run (this : CryptoManager) (k : CryptoKey) :
  key this = Some k ->
  forall ts w, exists r w',
    mapM encrypt ts (this, w) = (r, (this, w'))
    /\ localStorage w' = localStorage w
    /\ (forallb fits ts = true -> exists es, r = Ok es /\ length es = length ts)
    /\ (forallb fits ts = false -> r = Throw EncryptFailedError).
Proof.
  intros Hk. induction ts as [|t ts IH]; intros w.
  - exists (Ok []), w. repeat split; [eauto|discriminate].
  - cbn [mapM forallb]. unfold bind at 1.
    rewrite (encrypt_run this w k t Hk).
    destruct (fits t) eqn:Hf.
    + destruct (IH (advance 12 w)) as (r & w' & E & Hs & Hok & Hfail).
      unfold bind at 1. rewrite E. cbn [andb].
      destruct (forallb fits ts).
      * destruct (Hok eq_refl) as (es & -> & Hl).
        do 2 eexists. split; [reflexivity|]. split; [exact Hs|].
        split; [|discriminate]. intros _. eexists. split; [reflexivity|].
        cbn [length]. now rewrite Hl.
      * rewrite (Hfail eq_refl).
        do 2 eexists. split; [reflexivity|]. split; [exact Hs|].
        split; [discriminate|reflexivity].
    + do 2 eexists. split; [reflexivity|]. split; [reflexivity|].
      split; [discriminate|reflexivity].
Qed.

(** X6: without a key, encryptNote throws 'Crypto not initialized' on a
    note with a non-empty title, a non-empty content or at least one tag,
    and changes nothing; on a note without any of them it succeeds and only
    sets the encrypted flag. *)
Theorem encryptNote_without_key (this : CryptoManager) (w : World)
    (note : Note) :
  key this = None ->
  ((truthy (title note) = true \/ truthy (content note) = true
    \/ (exists t ts, tags note = Some (t :: ts))) ->
   encryptNote note (this, w) = (Throw NotInitializedError, (this, w)))
  /\ (truthy (title note) = false -> truthy (content note) = false ->
      (tags note = None \/ tags note = Some []) ->
      encryptNote note (this, w) = (Ok (with_encrypted note true), (this, w))).
Proof.
  intros Hk. destruct note as [i ti co ta pi ar cr up en].
  unfold encryptNote. note_fields. split.
  - intros Hs.
    destruct ti as [[|c1 t1]|]; destruct co as [[|c2 t2]|];
      destruct ta as [[|tg tgs]|]; cbn [truthy] in Hs;
      try (exfalso;
           destruct Hs as [Hs|[Hs|(t & ts & Hs)]]; discriminate);
      unfold bind, ret; cbn [mapM]; unfold bind;
      rewrite ?(encrypt_no_key this w _ Hk); reflexivity.
  - intros Hti Hco Hta.
    destruct ti as [[|c1 t1]|]; try discriminate;
      destruct co as [[|c2 t2]|]; try discriminate;
      destruct Hta as [->| ->]; reflexivity.
Qed.

(** X7: with a key, encryptNote returns a note exactly when every title,
    content and tag it has to seal is short enough for the engine, and
    throws 'Failed to encrypt data' otherwise. In the note it returns the
    id, the pinned and archived flags and both dates are copied
    unencrypted, the encrypted flag is set, the number of tags is kept and
    an empty or absent title or content stays as it is; neither the manager
    nor localStorage changes. *)
Theorem encryptNote_keeps_metadata (this : CryptoManager) (w : World)
    (k : CryptoKey) (note : Note) :
  key this = Some k ->
  (noteFits note = true ->
   exists enc s', encryptNote note (this, w) = (Ok enc, s'))
  /\ (noteFits note = false ->
      fst (encryptNote note (this, w)) = Throw EncryptFailedError)
  /\ forall enc s',
       encryptNote note (this, w) = (Ok enc, s') ->
       fst s' = this
       /\ localStorage (snd s') = localStorage w
       /\ id enc = id note /\ pinned enc = pinned note
       /\ archived enc = archived note /\ createdAt enc = createdAt note
       /\ updatedAt enc = updatedAt note
       /\ encrypted enc = Some true
       /\ (truthy (title note) = false -> title enc = title note)
       /\ (truthy (content note) = false -> content enc = content note)
       /\ option_map (@length jsstring) (tags enc)
          = option_map (@length jsstring) (tags note).
Proof.
  intros Hk.
  assert (Hout : exists r w',
            encryptNote note (this, w) = (r, (this, w'))
            /\ localStorage w' = localStorage w
            /\ match r with
               | Ok enc =>
                   noteFits note = true
                   /\ id enc = id note /\ pinned enc = pinned note
                   /\ archived enc = archived note
                   /\ createdAt enc = createdAt note
                   /\ updatedAt enc = updatedAt note
                   /\ encrypted enc = Some true
                   /\ (truthy (title note) = false -> title enc = title note)
                   /\ (truthy (content note) = false ->
                       content enc = content note)
                   /\ option_map (@length jsstring) (tags enc)
                      = option_map (@length jsstring) (tags note)
               | Throw e => noteFits note = false /\ e = EncryptFailedError
               end).
  { destruct note as [i ti co ta pi ar cr up en].
    unfold noteFits, encryptNote. note_fields.
    destruct ti as [[|c1 t1]|]; destruct co as [[|c2 t2]|];
      destruct ta as [[|tg tgs]|];
      cbn [optFits]; rewrite ?fits_empty;
      unfold bind, ret, with_title, with_content, with_tags, with_encrypted;
      note_fields;
      repeat (match goal with
              | |- context [encrypt ?d (?t, ?w0)] =>
                  rewrite (encrypt_run t w0 k d Hk);
                  destruct (fits d) eqn:?
              end; note_fields);
      try match goal with
          | |- context [mapM encrypt ?l (?t, ?w0)] =>
              destruct (mapM_encrypt_run t k Hk l w0)
                as (r & w' & Ees & Hst & Hok & Hfail);
              rewrite Ees; clear Ees;
              destruct (forallb fits l) eqn:?;
              [destruct (Hok eq_refl) as (es & -> & Hlen)
              |rewrite (Hfail eq_refl)]
          end;
      note_fields; do 2 eexists; (split; [reflexivity|]);
      (split; [first [reflexivity|assumption]|]);
      note_fields; cbn [truthy option_map andb forallb];
      repeat split; try reflexivity; try discriminate;
      try (f_equal; assumption). }
  destruct Hout as (r & w' & Er & Hs & Hr). rewrite Er. cbn [fst].
  split; [|split].
  - intros Hf. destruct r as [enc|e]; [eauto|]. now rewrite (proj1 Hr) in Hf.
  - intros Hf. destruct r as [enc|e]; [|now rewrite (proj2 Hr)].
    now rewrite (proj1 Hr) in Hf.
  - intros enc s' [= -> <-]. cbn [fst snd]. split; [reflexivity|].
    split; [exact Hs|]. apply Hr.
Qed.



(** Under a correct cipher, what encryptNote returns for a note of stable
    strings that are short enough is decrypted by decryptNote in every
    world. *)
Lemma encryptNote_decrypts {L : AeadCorrect W} (this : CryptoManager)
    (w : World) (k : CryptoKey) (note : Note) :
  key this = Some k -> noteStable note = true -> noteFits note = true ->
  exists enc w',
    encryptNote note (this, w) = (Ok enc, (this, w'))
    /\ localStorage w' = localStorage w
    /\ forall w2, decryptNote enc (this, w2)
                  = (Ok (with_encrypted note false), (this, w2)).
Proof.
  intros Hk Hst Hfit. destruct note as [i ti co ta pi ar cr up en].
  unfold noteStable in Hst. cbn [title content tags] in Hst.
  apply andb_true_iff in Hst. destruct Hst as [Hst Hta].
  apply andb_true_iff in Hst. destruct Hst as [Hti Hco].
  unfold noteFits in Hfit. cbn [title content tags] in Hfit.
  apply andb_true_iff in Hfit. destruct Hfit as [Hfit Hfta].
  apply andb_true_iff in Hfit. destruct Hfit as [Hfti Hfco].
  unfold encryptNote, decryptNote. note_fields.
  destruct ti as [[|c1 t1]|]; destruct co as [[|c2 t2]|];
    destruct ta as [[|tg tgs]|]; cbn [optStable] in Hti, Hco;
    cbn [optFits] in Hfti, Hfco;
    unfold bind, ret, with_title, with_content, with_tags, with_encrypted;
    note_fields;
    repeat (match goal with
            | |- context [encrypt ?d (?t, ?w0)] =>
                let e := fresh "e" in
                let Ee := fresh "Ee" in
                let Hn := fresh "Hn" in
                let Hd := fresh "Hd" in
                let Hs := fresh "Hs" in
                let Hf := fresh "Hf" in
                assert (Hs : utf8Stable d = true) by assumption;
                assert (Hf : fits d = true) by assumption;
                destruct (encrypt_opens t w0 k d Hk Hs Hf)
                  as (e & Ee & Hn & Hd); clear Hs Hf;
                rewrite Ee; clear Ee; destruct e; [congruence|]; clear Hn
            end; note_fields);
    try match goal with
        | |- context [mapM encrypt ?l (?t, ?w0)] =>
            destruct (mapM_encrypt_opens t k l Hk Hta Hfta w0)
              as (es & w' & Ees & Hes);
            destruct (mapM_encrypt_run t k Hk l w0)
              as (r' & w'' & Ees' & Hst' & _);
            rewrite Ees in Ees'; injection Ees' as <- <-;
            rewrite Ees; clear Ees;
            pose proof (mapM_decrypt_opens t _ _ Hes) as Hds;
            pose proof Hes as Hes';
            destruct es; [inversion Hes'|]; clear Hes'
        end;
    note_fields; do 2 eexists; (split; [reflexivity|]);
    (split; [first [reflexivity | assumption]|]);
    intros w2; note_fields;
    repeat match goal with
           | H : forall w, decrypt ?e (_, w) = _ |- context [decrypt ?e _] =>
               rewrite H
           end;
    rewrite ?Hds; reflexivity.
Qed.

End NotesMore.

Lemma encryptNote_without_key_witness :
  key constructor = None
  /\ ((truthy (title Toy.note0) = true \/ truthy (content Toy.note0) = true
       \/ (exists t ts, tags Toy.note0 = Some (t :: ts))) ->
      encryptNote (W := Toy.crypto) Toy.note0 (constructor, Toy.world0)
      = (Throw NotInitializedError, (constructor, Toy.world0)))
  /\ (truthy (title Toy.note0) = false ->
      truthy (content Toy.note0) = false ->
      (tags Toy.note0 = None \/ tags Toy.note0 = Some []) ->
      encryptNote (W := Toy.crypto) Toy.note0 (constructor, Toy.world0)
      = (Ok (with_encrypted Toy.note0 true), (constructor, Toy.world0))).
Proof.
  split; [reflexivity|].
  apply (encryptNote_without_key (W := Toy.crypto) constructor Toy.world0
           Toy.note0).
  reflexivity.
Defined.

Lemma encryptNote_keeps_metadata_witness :
  key Toy.manager = Some [x2a]
  /\ (noteFits Toy.noteSurrogate = true ->
      exists enc s',
        encryptNote (W := Toy.crypto) Toy.noteSurrogate
          (Toy.manager, Toy.world0) = (Ok enc, s'))
  /\ (noteFits Toy.noteSurrogate = false ->
      fst (encryptNote (W := Toy.crypto) Toy.noteSurrogate
             (Toy.manager, Toy.world0))
      = Throw EncryptFailedError)
  /\ forall enc s',
       encryptNote (W := Toy.crypto) Toy.noteSurrogate
         (Toy.manager, Toy.world0) = (Ok enc, s') ->
       fst s' = Toy.manager
       /\ localStorage (snd s') = localStorage Toy.world0
       /\ id enc = id Toy.noteSurrogate
       /\ pinned enc = pinned Toy.noteSurrogate
       /\ archived enc = archived Toy.noteSurrogate
       /\ createdAt enc = createdAt Toy.noteSurrogate
       /\ updatedAt enc = updatedAt Toy.noteSurrogate
       /\ encrypted enc = Some true
       /\ (truthy (title Toy.noteSurrogate) = false ->
           title enc = title Toy.noteSurrogate)
       /\ (truthy (content Toy.noteSurrogate) = false ->
           content enc = content Toy.noteSurrogate)
       /\ option_map (@length jsstring) (tags enc)
          = option_map (@length jsstring) (tags Toy.noteSurrogate).
Proof.
  split; [reflexivity|].
  apply (encryptNote_keeps_metadata (W := Toy.crypto) Toy.manager Toy.world0
           [x2a] Toy.noteSurrogate).
  reflexivity.
Defined.


(** ** More on the vault *)

Lemma saltKeyOf_inj (u u' : jsstring) :
  (saltKeyOf u = saltKeyOf u' -> u = u')
  /\ (testKeyOf u = testKeyOf u' -> u = u')
  /\ (vaultKeyOf u = vaultKeyOf u' -> u = u').
Proof.
  unfold saltKeyOf, testKeyOf, vaultKeyOf.
  repeat split; intros E; now apply app_inv_head in E.
Qed.

Lemma matchPairs_terminators (s : jsstring) :
  forallb isLineTerminator s = true -> matchPairs s = [].
Proof.
  induction s as [|c s IH]; [reflexivity|].
  cbn [forallb matchPairs]. intros H. apply andb_true_iff in H.
  destruct H as [Hc Hs]. rewrite Hc. now apply IH.
Qed.

Section VaultMore.
Context {W : WebCrypto} {Eng : Engine}.

Ltac run :=
  cbv [try_catch bind ret throw getItem setItem removeItem getRandomValues
       get_key set_key set_userId deriveKey fst snd key userId].

(** X9: a persisted salt string that consists of line terminators only
    cannot be split into bytes: initialize returns false without throwing,
    keeps the manager without the new key and writes nothing. *)
Theorem initialize_salt_of_terminators (this : CryptoManager) (w : World)
    (passphrase u salt : jsstring) :
  localStorage w !! saltKeyOf u = Some salt -> salt <> [] ->
  forallb isLineTerminator salt = true ->
  initialize passphrase u (this, w) = (Ok false, (this, w)).
Proof.
  intros Hs Hne Hlt. destruct salt as [|c s']; [congruence|].
  apply (initialize_unreadable_salt this w passphrase u c s' Hs).
  unfold saltFromHex, match_1_2. now rewrite (matchPairs_terminators _ Hlt).
Qed.

(** Every outcome of [initialize]: it returns, and writes at most the salt
    and the probe of the user. *)
Lemma initialize_outcome (this : CryptoManager) (w : World)
    (passphrase u : jsstring) :
  exists b this' w',
    initialize passphrase u (this, w) = (Ok b, (this', w'))
    /\ forall item, item <> saltKeyOf u -> item <> testKeyOf u ->
                    localStorage w' !! item = localStorage w !! item.
Proof.
  assert (Hsome : forall this w c s',
            localStorage w !! saltKeyOf u = Some (c :: s') ->
            exists b this' w',
              initialize passphrase u (this, w) = (Ok b, (this', w'))
              /\ forall item, item <> saltKeyOf u -> item <> testKeyOf u ->
                   localStorage w' !! item = localStorage w !! item).
  { clear this w. intros this w c s' Hs.
    destruct (saltFromHex (c :: s')) as [sa|] eqn:Hp.
    - rewrite (initialize_existing_salt this w passphrase u c s' sa Hs Hp).
      destruct (localStorage w !! testKeyOf u) as [[|c' t']|];
        do 3 eexists; (split; [reflexivity|]); intros item H1 H2;
        cbn [store advance localStorage];
        rewrite ?lookup_insert_ne by congruence; reflexivity.
    - rewrite (initialize_unreadable_salt this w passphrase u c s' Hs Hp).
      do 3 eexists. split; [reflexivity|]. reflexivity. }
  destruct (localStorage w !! saltKeyOf u) as [[|c s']|] eqn:Hs.
  - rewrite (initialize_no_salt this w passphrase u) by now rewrite Hs.
    destruct (saltToHex_nonempty (draw 16 w)) as (c & s' & E);
      [apply draw_nonempty|].
    destruct (Hsome this
                (store (saltKeyOf u) (saltToHex (draw 16 w)) (advance 16 w))
                c s') as (b & this' & w' & Hi & Hf).
    { cbn [store localStorage]. now rewrite lookup_insert_eq, E. }
    exists b, this', w'. split; [exact Hi|].
    intros item H1 H2. rewrite (Hf item H1 H2).
    cbn [store advance localStorage]. now rewrite lookup_insert_ne by congruence.
  - exact (Hsome this w c s' Hs).
  - rewrite (initialize_no_salt this w passphrase u) by now rewrite Hs.
    destruct (saltToHex_nonempty (draw 16 w)) as (c & s' & E);
      [apply draw_nonempty|].
    destruct (Hsome this
                (store (saltKeyOf u) (saltToHex (draw 16 w)) (advance 16 w))
                c s') as (b & this' & w' & Hi & Hf).
    { cbn [store localStorage]. now rewrite lookup_insert_eq, E. }
    exists b, this', w'. split; [exact Hi|].
    intros item H1 H2. rewrite (Hf item H1 H2).
    cbn [store advance localStorage]. now rewrite lookup_insert_ne by congruence.
Qed.

(** X10: initialize never throws, and whatever it does for one user it
    leaves the salt, the probe and the vault marker of every other user in
    localStorage as they are. *)
Theorem initialize_other_users (this : CryptoManager) (w : World)
    (passphrase u u' : jsstring) :
  u' <> u ->
  exists b this' w',
    initialize passphrase u (this, w) = (Ok b, (this', w'))
    /\ localStorage w' !! saltKeyOf u' = localStorage w !! saltKeyOf u'
    /\ localStorage w' !! testKeyOf u' = localStorage w !! testKeyOf u'
    /\ localStorage w' !! vaultKeyOf u' = localStorage w !! vaultKeyOf u'.
Proof.
  intros Hne.
  destruct (initialize_outcome this w passphrase u) as (b & this' & w' & Hi & Hf).
  exists b, this', w'. split; [exact Hi|].
  pose proof (keys_distinct u' u) as (D1 & D2 & D3 & _).
  pose proof (keys_distinct u u') as (E1 & E2 & E3 & _).
  destruct (saltKeyOf_inj u' u) as (I1 & I2 & I3).
  repeat split; apply Hf; intros E; auto; congruence.
Qed.

(** X11: createUserVault for one user leaves the salt, the probe and the
    vault marker of every other user as they are. *)
Theorem createUserVault_other_users (this : CryptoManager) (w : World)
    (passphrase u u' : jsstring) :
  u' <> u ->
  exists s1,
    createUserVault passphrase u (this, w) = (Ok true, s1)
    /\ localStorage (snd s1) !! saltKeyOf u' = localStorage w !! saltKeyOf u'
    /\ localStorage (snd s1) !! testKeyOf u' = localStorage w !! testKeyOf u'
    /\ localStorage (snd s1) !! vaultKeyOf u'
       = localStorage w !! vaultKeyOf u'.
Proof.
  intros Hne. eexists. split; [apply createUserVault_run|].
  cbn [snd]. rewrite createdVault_storage.
  pose proof (keys_distinct u' u) as (D1 & D2 & D3 & D4 & D5 & D6).
  pose proof (keys_distinct u u') as (E1 & E2 & E3 & _).
  destruct (saltKeyOf_inj u' u) as (I1 & I2 & I3).
  repeat split;
    rewrite !lookup_insert_ne by (intros E; auto; congruence);
    rewrite !lookup_delete_ne by (intros E; auto; congruence);
    reflexivity.
Qed.

End VaultMore.

Section Validation.
Context {W : WebCrypto} {Eng : Engine}.

Ltac run :=
  cbv [try_catch bind ret throw getItem setItem removeItem getRandomValues
       get_key set_key set_userId deriveKey fst snd key userId].

(** [validateKey] with a key: a persisted probe is validated; without one
    a probe is sealed, persisted and then validated. *)
Lemma validateKey_run (this : CryptoManager) (w : World) (k : CryptoKey)
    (u : jsstring) :
  key this = Some k ->
  validateKey u (this, w)
  = match localStorage w !! testKeyOf u with
    | Some (c :: t) =>
        (Ok (match fst (decrypt (c :: t) (this, w)) with
             | Ok decrypted => jsstring_eqb decrypted testMessage
             | Throw _ => false
             end), (this, w))
    | _ =>
        let w' := store (testKeyOf u) (envelope k (draw 12 w) testMessage)
                    (advance 12 w) in
        (Ok (match fst (decrypt (envelope k (draw 12 w) testMessage)
                          (this, w')) with
             | Ok decrypted => jsstring_eqb decrypted testMessage
             | Throw _ => false
             end), (this, w'))
    end.
Proof.
  intros Hk. unfold validateKey. run.
  assert (Hd : forall e s,
            (let (r, s') := let (r, s') := decrypt e s in
                            match r with
                            | Ok a => (Ok (jsstring_eqb a testMessage), s')
                            | Throw err => (Throw err, s')
                            end in
             match r with
             | Ok a => (Ok a, s')
             | Throw _ => (Ok false, s')
             end)
            = (Ok (match fst (decrypt e s) with
                   | Ok decrypted => jsstring_eqb decrypted testMessage
                   | Throw _ => false
                   end), s)).
  { intros e s. pose proof (decrypt_state e s) as Hs.
    destruct (decrypt e s) as [[d|err] s2]; cbn [fst snd] in *; now subst. }
  destruct (localStorage w !! testKeyOf u) as [[|c t]|].
  - rewrite (encrypt_probe this w k Hk). rewrite Hd. reflexivity.
  - rewrite Hd. reflexivity.
  - rewrite (encrypt_probe this w k Hk). rewrite Hd. reflexivity.
Qed.

(** X12: without a key, validateKey returns false: it throws nothing,
    writes no probe and leaves the manager as it is. *)
Theorem validateKey_without_key (this : CryptoManager) (w : World)
    (u : jsstring) :
  key this = None ->
  validateKey u (this, w) = (Ok false, (this, w)).
Proof.
  intros Hk. unfold validateKey. run.
  destruct (localStorage w !! testKeyOf u) as [[|c t]|];
    rewrite ?(encrypt_no_key this w _ Hk), ?(decrypt_no_key this w _ Hk);
    reflexivity.
Qed.

(** X13: validateKey agrees with initialize. When the persisted salt, if
    there is one, can be split into bytes, validateKey called after
    initialize returns what initialize returned and changes nothing; the
    cipher is assumed to decrypt what it encrypted. *)
Theorem validateKey_after_initialize {L : AeadCorrect W}
    (this : CryptoManager) (w : World) (passphrase u : jsstring) :
  (forall salt, localStorage w !! saltKeyOf u = Some salt -> salt <> [] ->
                saltFromHex salt <> None) ->
  exists b s1,
    initialize passphrase u (this, w) = (Ok b, s1)
    /\ validateKey u s1 = (Ok b, s1).
Proof.
  assert (Hsome : forall this w c s',
            localStorage w !! saltKeyOf u = Some (c :: s') ->
            saltFromHex (c :: s') <> None ->
            exists b s1,
              initialize passphrase u (this, w) = (Ok b, s1)
              /\ validateKey u s1 = (Ok b, s1)).
  { clear this w. intros this w c s' Hs Hp.
    destruct (saltFromHex (c :: s')) as [sa|] eqn:Hsa; [|congruence].
    rewrite (initialize_existing_salt this w passphrase u c s' sa Hs Hsa).
    set (k := derivedKey passphrase sa).
    assert (Hboot :
              validateKey u
                (unlocked k u,
                 store (testKeyOf u) (envelope k (draw 12 w) testMessage)
                   (advance 12 w))
              = (Ok true,
                 (unlocked k u,
                  store (testKeyOf u) (envelope k (draw 12 w) testMessage)
                    (advance 12 w)))).
    { rewrite (validateKey_run (unlocked k u) _ k u eq_refl).
      cbn [store advance localStorage]. rewrite lookup_insert_eq.
      pose proof (probe_validates k u w
                    (store (testKeyOf u) (envelope k (draw 12 w) testMessage)
                       (advance 12 w))) as Hv.
      cbn [store advance localStorage] in Hv.
      destruct (envelope_nonempty k w testMessage) as (c0 & t0 & Ee).
      rewrite Ee in *. now rewrite Hv. }
    destruct (localStorage w !! testKeyOf u) as [[|c' t']|] eqn:Ht;
      do 2 eexists; (split; [reflexivity|]); try exact Hboot.
    rewrite (validateKey_run (unlocked k u) _ k u eq_refl).
    now rewrite Ht. }
  intros Hread.
  destruct (localStorage w !! saltKeyOf u) as [[|c s']|] eqn:Hs.
  - rewrite (initialize_no_salt this w passphrase u) by now rewrite Hs.
    destruct (saltToHex_nonempty (draw 16 w)) as (c & s' & E);
      [apply draw_nonempty|].
    apply (Hsome this _ c s').
    + cbn [store localStorage]. now rewrite lookup_insert_eq, E.
    + rewrite <- E, saltFromHex_saltToHex by apply draw_nonempty. discriminate.
  - apply (Hsome this w c s' Hs). apply (Hread _ eq_refl). discriminate.
  - rewrite (initialize_no_salt this w passphrase u) by now rewrite Hs.
    destruct (saltToHex_nonempty (draw 16 w)) as (c & s' & E);
      [apply draw_nonempty|].
    apply (Hsome this _ c s').
    + cbn [store localStorage]. now rewrite lookup_insert_eq, E.
    + rewrite <- E, saltFromHex_saltToHex by apply draw_nonempty. discriminate.
Qed.

End Validation.

Section Sessions.
Context {W : WebCrypto} {Eng : Engine}.

(** X14: initialize is idempotent: called twice in a row with the same
    passphrase and userId it returns the second time what it returned the
    first time and leaves the state of the first call; the cipher is
    assumed to decrypt what it encrypted. *)
Theorem initialize_twice {L : AeadCorrect W} (this : CryptoManager)
    (w : World) (passphrase u : jsstring) :
  bind (initialize passphrase u) (fun _ => initialize passphrase u) (this, w)
  = initialize passphrase u (this, w).
Proof.
  assert (Hsome : forall this w c s',
            localStorage w !! saltKeyOf u = Some (c :: s') ->
            bind (initialize passphrase u)
              (fun _ => initialize passphrase u) (this, w)
            = initialize passphrase u (this, w)).
  { clear this w. intros this w c s' Hs. unfold bind.
    destruct (saltFromHex (c :: s')) as [sa|] eqn:Hsa.
    - rewrite (initialize_existing_salt this w passphrase u c s' sa Hs Hsa).
      set (k := derivedKey passphrase sa).
      assert (Hboot :
                initialize passphrase u
                  (unlocked k u,
                   store (testKeyOf u) (envelope k (draw 12 w) testMessage)
                     (advance 12 w))
                = (Ok true,
                   (unlocked k u,
                    store (testKeyOf u) (envelope k (draw 12 w) testMessage)
                      (advance 12 w)))).
      { rewrite (initialize_existing_salt (unlocked k u) _ passphrase u c s'
                   sa); [|cbn [store advance localStorage];
                          rewrite lookup_insert_ne
                            by (apply not_eq_sym, keys_distinct);
                          exact Hs|exact Hsa].
        cbn [store advance localStorage]. rewrite lookup_insert_eq.
        pose proof (probe_validates k u w
                      (store (testKeyOf u)
                         (envelope k (draw 12 w) testMessage)
                         (advance 12 w))) as Hv.
        cbn [store advance localStorage] in Hv.
        destruct (envelope_nonempty k w testMessage) as (c0 & t0 & Ee).
        fold k. rewrite Ee in *. now rewrite Hv. }
      destruct (localStorage w !! testKeyOf u) as [[|c' t']|] eqn:Ht;
        try exact Hboot.
      rewrite (initialize_existing_salt (unlocked k u) w passphrase u c s'
                 sa Hs Hsa).
      now rewrite Ht.
    - rewrite (initialize_unreadable_salt this w passphrase u c s' Hs Hsa).
      apply (initialize_unreadable_salt this w passphrase u c s' Hs Hsa). }
  assert (Hnone : truthy (localStorage w !! saltKeyOf u) = false ->
            bind (initialize passphrase u)
              (fun _ => initialize passphrase u) (this, w)
            = initialize passphrase u (this, w)).
  { intros Hno. unfold bind.
    rewrite (initialize_no_salt this w passphrase u Hno).
    destruct (saltToHex_nonempty (draw 16 w)) as (c & s' & E);
      [apply draw_nonempty|].
    apply (Hsome this _ c s').
    cbn [store localStorage]. now rewrite lookup_insert_eq, E. }
  destruct (localStorage w !! saltKeyOf u) as [[|c s']|] eqn:Hs.
  - now apply Hnone.
  - exact (Hsome this w c s' Hs).
  - now apply Hnone.
Qed.

(** On the storage [createUserVault] left, [initialize] with the
    passphrase of the creation succeeds. *)
Lemma initialize_created_vault {L : AeadCorrect W} (passphrase u : jsstring)
    (w : World) (this2 : CryptoManager) (w2 : World) :
  localStorage w2 = localStorage (createdVault passphrase u w) ->
  initialize passphrase u (this2, w2)
  = (Ok true, (unlocked (derivedKey passphrase (draw 16 w)) u, w2)).
Proof.
  intros Hw2.
  destruct (createdVault_lookup passphrase u w) as (Hs & Ht & _).
  rewrite <- Hw2 in Hs, Ht.
  destruct (saltToHex_nonempty (draw 16 w)) as (c & s' & E);
    [apply draw_nonempty|].
  rewrite E in Hs.
  assert (Hparse : saltFromHex (c :: s') = Some (draw 16 w))
    by (rewrite <- E; apply saltFromHex_saltToHex, draw_nonempty).
  rewrite (initialize_existing_salt this2 w2 passphrase u c s' _ Hs Hparse).
  rewrite Ht.
  pose proof (probe_validates (derivedKey passphrase (draw 16 w)) u
                (resalted u w) w2) as Hv.
  fold (createdProbe passphrase u w) in Hv.
  destruct (createdProbe_nonempty passphrase u w) as (c' & t' & Ee).
  rewrite Ee in *. now rewrite Hv.
Qed.


(** X16: a whole session. After createUserVault, a note of stable strings
    that are short enough for the engine, encrypted by encryptNote, is
    recovered by decryptNote after the manager was locked by clear() and
    unlocked by initialize with the same passphrase; the cipher is assumed
    to decrypt what it encrypted. *)
Theorem note_survives_lock {L : AeadCorrect W} (this : CryptoManager)
    (w : World) (passphrase u : jsstring) (note : Note) :
  noteStable note = true -> noteFits note = true ->
  fst (bind (createUserVault passphrase u)
         (fun _ => bind (encryptNote note)
            (fun enc => bind clear
               (fun _ => bind (initialize passphrase u)
                  (fun ok => bind (decryptNote enc)
                     (fun dec => ret (ok, dec))))))
         (this, w))
  = Ok (true, with_encrypted note false).
Proof.
  intros Hst Hfit. unfold bind at 1. rewrite createUserVault_run.
  set (k := derivedKey passphrase (draw 16 w)).
  destruct (encryptNote_decrypts (unlocked k u) (createdVault passphrase u w)
              k note eq_refl Hst Hfit) as (enc & w' & Ee & Hs & Hd).
  unfold bind at 1. rewrite Ee.
  unfold bind at 1. unfold clear, set_key. cbn [fst snd userId unlocked].
  unfold bind at 1.
  rewrite (initialize_created_vault passphrase u w _ w' Hs). fold k.
  unfold bind at 1. rewrite (Hd w'). reflexivity.
Qed.

End Sessions.

Lemma initialize_salt_of_terminators_witness :
  localStorage Samples.brokenSalt !! saltKeyOf Toy.u1 = Some [10]
  /\ [10] <> [] /\ forallb isLineTerminator [10] = true
  /\ initialize (W := Toy.crypto) Toy.pw Toy.u1
       (constructor, Samples.brokenSalt)
     = (Ok false, (constructor, Samples.brokenSalt)).
Proof.
  split; [vm_compute; reflexivity|]. split; [discriminate|].
  split; [reflexivity|].
  apply (initialize_salt_of_terminators (W := Toy.crypto) constructor
           Samples.brokenSalt Toy.pw Toy.u1 [10]).
  - vm_compute. reflexivity.
  - discriminate.
  - reflexivity.
Defined.

Lemma initialize_other_users_witness :
  Samples.u2 <> Toy.u1
  /\ exists b this' w',
       initialize (W := Toy.crypto) Toy.wrongPw Toy.u1
         (constructor, Samples.twoUsers) = (Ok b, (this', w'))
       /\ localStorage w' !! saltKeyOf Samples.u2
          = localStorage Samples.twoUsers !! saltKeyOf Samples.u2
       /\ localStorage w' !! testKeyOf Samples.u2
          = localStorage Samples.twoUsers !! testKeyOf Samples.u2
       /\ localStorage w' !! vaultKeyOf Samples.u2
          = localStorage Samples.twoUsers !! vaultKeyOf Samples.u2.
Proof.
  split; [discriminate|].
  apply (initialize_other_users (W := Toy.crypto) constructor
           Samples.twoUsers Toy.wrongPw Toy.u1 Samples.u2).
  discriminate.
Defined.

Lemma createUserVault_other_users_witness :
  Samples.u2 <> Toy.u1
  /\ exists s1,
       createUserVault (W := Toy.crypto) Toy.pw Toy.u1
         (constructor, Samples.twoUsers) = (Ok true, s1)
       /\ localStorage (snd s1) !! saltKeyOf Samples.u2
          = localStorage Samples.twoUsers !! saltKeyOf Samples.u2
       /\ localStorage (snd s1) !! testKeyOf Samples.u2
          = localStorage Samples.twoUsers !! testKeyOf Samples.u2
       /\ localStorage (snd s1) !! vaultKeyOf Samples.u2
          = localStorage Samples.twoUsers !! vaultKeyOf Samples.u2.
Proof.
  split; [discriminate|].
  apply (createUserVault_other_users (W := Toy.crypto) constructor
           Samples.twoUsers Toy.pw Toy.u1 Samples.u2).
  discriminate.
Defined.

Lemma validateKey_without_key_witness :
  key constructor = None
  /\ validateKey (W := Toy.crypto) Toy.u1 (constructor, Toy.vault0)
     = (Ok false, (constructor, Toy.vault0)).
Proof.
  split; [reflexivity|].
  apply (validateKey_without_key (W := Toy.crypto) constructor Toy.vault0
           Toy.u1).
  reflexivity.
Defined.

Lemma validateKey_after_initialize_witness :
  (forall salt, localStorage Toy.world0 !! saltKeyOf Toy.u1 = Some salt ->
                salt <> [] -> saltFromHex salt <> None)
  /\ exists b s1,
       initialize (W := Toy.crypto) Toy.pw Toy.u1 (constructor, Toy.world0)
       = (Ok b, s1)
       /\ validateKey (W := Toy.crypto) Toy.u1 s1 = (Ok b, s1).
Proof.
  assert (H : forall salt,
            localStorage Toy.world0 !! saltKeyOf Toy.u1 = Some salt ->
            salt <> [] -> saltFromHex salt <> None)
    by (intros salt E; vm_compute in E; discriminate).
  split; [exact H|].
  apply (validateKey_after_initialize (W := Toy.crypto) (L := Toy_correct)
           constructor Toy.world0 Toy.pw Toy.u1 H).
Defined.

Lemma initialize_twice_witness :
  bind (initialize (W := Toy.crypto) Toy.wrongPw Toy.u1)
    (fun _ => initialize (W := Toy.crypto) Toy.wrongPw Toy.u1)
    (constructor, Toy.vault0)
  = initialize (W := Toy.crypto) Toy.wrongPw Toy.u1 (constructor, Toy.vault0).
Proof.
  exact (initialize_twice (W := Toy.crypto) (L := Toy_correct) constructor
           Toy.vault0 Toy.wrongPw Toy.u1).
Defined.


Lemma note_survives_lock_witness :
  noteStable Toy.note0 = true /\ noteFits Toy.note0 = true
  /\ fst (bind (createUserVault (W := Toy.crypto) Toy.pw Toy.u1)
            (fun _ => bind (encryptNote (W := Toy.crypto) Toy.note0)
               (fun enc => bind clear
                  (fun _ => bind (initialize (W := Toy.crypto) Toy.pw Toy.u1)
                     (fun ok => bind (decryptNote (W := Toy.crypto) enc)
                        (fun dec => ret (ok, dec))))))
            (constructor, Toy.world0))
     = Ok (true, with_encrypted Toy.note0 false).
Proof.
  split; [reflexivity|]. split; [reflexivity|].
  apply (note_survives_lock (W := Toy.crypto) (L := Toy_correct) constructor
           Toy.world0 Toy.pw Toy.u1 Toy.note0); reflexivity.
Defined.

(** ** Passwords *)

(** The repeated-character test finds three equal code units in a row that
    are no line terminators. *)
Lemma hasTripleRepeat_spec (p : jsstring) :
  hasTripleRepeat p = true
  <-> exists pre c post,
        p = pre ++ c :: c :: c :: post /\ isLineTerminator c = false.
Proof.
  split.
  - induction p as [|a rest IH]; [discriminate|].
    cbn [hasTripleRepeat]. destruct rest as [|b [|c r]]; try discriminate.
    intros H. apply orb_true_iff in H. destruct H as [H|H].
    + apply andb_true_iff in H. destruct H as [H Hbc].
      apply andb_true_iff in H. destruct H as [Hlt Hab].
      apply N.eqb_eq in Hab, Hbc. subst b c.
      exists [], a, r. split; [reflexivity|now apply negb_true_iff].
    + destruct (IH H) as (pre & c0 & post & E & Hlt).
      exists (a :: pre), c0, post. cbn [app]. now rewrite E.
  - intros (pre & c & post & -> & Hlt).
    induction pre as [|a pre IH].
    + cbn [app hasTripleRepeat]. now rewrite Hlt, N.eqb_refl.
    + cbn [app hasTripleRepeat].
      destruct (pre ++ c :: c :: c :: post) as [|x [|y r]] eqn:E;
        try (destruct pre as [|? [|? ?]]; discriminate).
      rewrite IH. apply orb_true_r.
Qed.

Lemma class_of_char (c : N) :
  isLowerAZ c || isUpperAZ c || isDigit09 c || isOtherChar c = true.
Proof.
  unfold isOtherChar.
  destruct (isLowerAZ c), (isUpperAZ c), (isDigit09 c); reflexivity.
Qed.

Lemma classes_disjoint (c : N) :
  (isLowerAZ c = true -> isUpperAZ c = false /\ isDigit09 c = false
                         /\ isOtherChar c = false)
  /\ (isUpperAZ c = true -> isLowerAZ c = false /\ isDigit09 c = false
                            /\ isOtherChar c = false)
  /\ (isDigit09 c = true -> isLowerAZ c = false /\ isUpperAZ c = false
                            /\ isOtherChar c = false)
  /\ (isOtherChar c = true -> isLowerAZ c = false /\ isUpperAZ c = false
                              /\ isDigit09 c = false).
Proof.
  unfold isOtherChar, isLowerAZ, isUpperAZ, isDigit09.
  destruct (N.leb_spec 97 c), (N.leb_spec c 122), (N.leb_spec 65 c),
    (N.leb_spec c 90), (N.leb_spec 48 c), (N.leb_spec c 57);
    cbn; repeat split; intros; try discriminate; try reflexivity; lia.
Qed.

Lemma existsb_class (p : jsstring) :
  p <> [] ->
  existsb isLowerAZ p || existsb isUpperAZ p || existsb isDigit09 p
  || existsb isOtherChar p = true.
Proof.
  destruct p as [|c p]; [congruence|]. intros _. cbn [existsb].
  pose proof (class_of_char c) as H.
  destruct (isLowerAZ c), (isUpperAZ c), (isDigit09 c), (isOtherChar c);
    cbn in *; try discriminate; rewrite ?orb_true_r; reflexivity.
Qed.

Lemma forallb_excludes (P Q : N -> bool) (p : jsstring) :
  (forall c, P c = true -> Q c = false) ->
  forallb P p = true -> existsb Q p = false.
Proof.
  intros H. induction p as [|c p IH]; [reflexivity|].
  cbn [forallb existsb]. intros Hp. apply andb_true_iff in Hp.
  destruct Hp as [Hc Hp]. now rewrite (H c Hc), (IH Hp).
Qed.

Ltac strength_cases p :=
  unfold analyzePasswordStrength; cbn [score feedback strength];
  destruct (Z.leb_spec 12 (Z.of_nat (length p)));
  destruct (Z.leb_spec 8 (Z.of_nat (length p)));
  try lia.

(** X17: analyzePasswordStrength calls a password strong only if it has at
    least 8 characters and characters of at least three of the four
    classes (lower case, upper case, digit, other). *)
Theorem strong_password_needs (password : jsstring) :
  strength (analyzePasswordStrength password) = js "strong" ->
  (8 <= length password)%nat
  /\ (3 <= Z.b2z (existsb isLowerAZ password)
          + Z.b2z (existsb isUpperAZ password)
          + Z.b2z (existsb isDigit09 password)
          + Z.b2z (existsb isOtherChar password))%Z.
Proof.
  strength_cases password;
    destruct (existsb isLowerAZ password), (existsb isUpperAZ password),
      (existsb isDigit09 password), (existsb isOtherChar password),
      (hasTripleRepeat password);
    intros Hstrong; vm_compute in Hstrong; try discriminate;
    cbn [Z.b2z]; split; lia.
Qed.

(** X18: a password of at least 12 characters without three equal
    characters in a row is never weak. *)
Theorem long_password_not_weak (password : jsstring) :
  (12 <= length password)%nat -> hasTripleRepeat password = false ->
  strength (analyzePasswordStrength password) <> js "weak"
  /\ feedback (analyzePasswordStrength password) = [].
Proof.
  intros Hlen Hrep.
  assert (Hc : password <> []) by (destruct password; cbn in Hlen; [lia|discriminate]).
  pose proof (existsb_class password Hc) as Hcl.
  strength_cases password. rewrite Hrep.
  destruct (existsb isLowerAZ password), (existsb isUpperAZ password),
    (existsb isDigit09 password), (existsb isOtherChar password);
    try discriminate; (split; [vm_compute; discriminate|reflexivity]).
Qed.

(** X19: a password shorter than 12 characters whose characters are all of
    one class (only lower case, only upper case, only digits or only other
    characters) is weak. *)
Theorem single_class_password_weak (password : jsstring) :
  (length password < 12)%nat ->
  (forallb isLowerAZ password = true \/ forallb isUpperAZ password = true
   \/ forallb isDigit09 password = true
   \/ forallb isOtherChar password = true) ->
  strength (analyzePasswordStrength password) = js "weak".
Proof.
  intros Hlen Hcl.
  assert (Hex : (Z.b2z (existsb isLowerAZ password)
                 + Z.b2z (existsb isUpperAZ password)
                 + Z.b2z (existsb isDigit09 password)
                 + Z.b2z (existsb isOtherChar password) <= 1)%Z).
  { destruct Hcl as [H|[H|[H|H]]].
    - rewrite (forallb_excludes isLowerAZ isUpperAZ password), 
        (forallb_excludes isLowerAZ isDigit09 password),
        (forallb_excludes isLowerAZ isOtherChar password); auto;
        try (intros c Hc; pose proof (classes_disjoint c); tauto).
      destruct (existsb isLowerAZ password); cbn; lia.
    - rewrite (forallb_excludes isUpperAZ isLowerAZ password), 
        (forallb_excludes isUpperAZ isDigit09 password),
        (forallb_excludes isUpperAZ isOtherChar password); auto;
        try (intros c Hc; pose proof (classes_disjoint c); tauto).
      destruct (existsb isUpperAZ password); cbn; lia.
    - rewrite (forallb_excludes isDigit09 isLowerAZ password), 
        (forallb_excludes isDigit09 isUpperAZ password),
        (forallb_excludes isDigit09 isOtherChar password); auto;
        try (intros c Hc; pose proof (classes_disjoint c); tauto).
      destruct (existsb isDigit09 password); cbn; lia.
    - rewrite (forallb_excludes isOtherChar isLowerAZ password), 
        (forallb_excludes isOtherChar isUpperAZ password),
        (forallb_excludes isOtherChar isDigit09 password); auto;
        try (intros c Hc; pose proof (classes_disjoint c); tauto).
      destruct (existsb isOtherChar password); cbn; lia. }
  clear Hcl. revert Hex. strength_cases password;
    destruct (existsb isLowerAZ password), (existsb isUpperAZ password),
      (existsb isDigit09 password), (existsb isOtherChar password),
      (hasTripleRepeat password);
    cbn [Z.b2z]; intros Hex; try lia; reflexivity.
Qed.

(** X20: the feedback of analyzePasswordStrength holds 'Use at least 8
    characters' exactly for passwords shorter than 8 characters, and
    'Avoid repeated characters' exactly for passwords with three equal
    characters in a row (line terminators apart); the score lies between
    -1 and 6. *)
Theorem password_feedback (password : jsstring) :
  (In (js "Use at least 8 characters")
      (feedback (analyzePasswordStrength password))
   <-> (length password < 8)%nat)
  /\ (In (js "Avoid repeated characters")
         (feedback (analyzePasswordStrength password))
      <-> exists pre c post,
            password = pre ++ c :: c :: c :: post
            /\ isLineTerminator c = false)
  /\ (-1 <= score (analyzePasswordStrength password) <= 6)%Z.
Proof.
  rewrite <- hasTripleRepeat_spec.
  strength_cases password;
    destruct (existsb isLowerAZ password), (existsb isUpperAZ password),
      (existsb isDigit09 password), (existsb isOtherChar password),
      (hasTripleRepeat password);
    cbn [app In];
    (split; [split; [intros Hin; repeat destruct Hin as [Hin|Hin];
                     try (vm_compute in Hin; discriminate);
                     try contradiction; lia
                    |intros Hl; first [lia | now left]]|]);
    (split; [split; [intros Hin; repeat destruct Hin as [Hin|Hin];
                     try (vm_compute in Hin; discriminate);
                     try contradiction; reflexivity
                    |intros Hl; first [discriminate
                                      | now left | right; now left]]|]);
    lia.
Qed.

Lemma strong_password_needs_witness :
  strength (analyzePasswordStrength (js "Correct-Horse-42")) = js "strong"
  /\ (8 <= length (js "Correct-Horse-42"))%nat
  /\ (3 <= Z.b2z (existsb isLowerAZ (js "Correct-Horse-42"))
           + Z.b2z (existsb isUpperAZ (js "Correct-Horse-42"))
           + Z.b2z (existsb isDigit09 (js "Correct-Horse-42"))
           + Z.b2z (existsb isOtherChar (js "Correct-Horse-42")))%Z.
Proof.
  split; [reflexivity|].
  apply (strong_password_needs (js "Correct-Horse-42")). reflexivity.
Defined.

Lemma long_password_not_weak_witness :
  (12 <= length (js "correcthorsebatterystaple"))%nat
  /\ hasTripleRepeat (js "correcthorsebatterystaple") = false
  /\ strength (analyzePasswordStrength (js "correcthorsebatterystaple"))
     <> js "weak"
  /\ feedback (analyzePasswordStrength (js "correcthorsebatterystaple")) = [].
Proof.
  split; [vm_compute; lia|]. split; [reflexivity|].
  apply (long_password_not_weak (js "correcthorsebatterystaple")).
  - vm_compute. lia.
  - reflexivity.
Defined.

Lemma single_class_password_weak_witness :
  (length (js "password") < 12)%nat
  /\ forallb isLowerAZ (js "password") = true
  /\ strength (analyzePasswordStrength (js "password")) = js "weak".
Proof.
  split; [vm_compute; lia|]. split; [reflexivity|].
  apply (single_class_password_weak (js "password")).
  - vm_compute. lia.
  - left. reflexivity.
Defined.

Lemma charsetAt_in (b : byte) : In (charsetAt b) charset.
Proof.
  unfold charsetAt. apply nth_In.
  change (length charset) with 70%nat.
  pose proof (to_N_lt b). lia.
Qed.

(** X21: generateSecurePassword(length) for a length of at most 65536
    draws exactly that many random bytes and returns a password of that
    many characters, each taken from the charset; for a larger length it
    throws and draws nothing. localStorage is not touched. *)
Theorem generateSecurePassword_spec (length0 : nat) (w : World) :
  (N.of_nat length0 <= 65536 ->
   exists password,
     generateSecurePassword length0 w = (Some password, advance length0 w)
     /\ length password = length0
     /\ Forall (fun c => In c charset) password
     /\ password = map charsetAt (draw length0 w))
  /\ (65536 < N.of_nat length0 ->
      generateSecurePassword length0 w = (None, w))
  /\ localStorage (snd (generateSecurePassword length0 w)) = localStorage w.
Proof.
  unfold generateSecurePassword.
  destruct (N.ltb_spec 65536 (N.of_nat length0)) as [Hbig|Hok].
  - split; [intros Hle; lia|]. split; reflexivity.
  - split; [|split; [intros Hgt; lia|reflexivity]].
    intros _. eexists. split; [reflexivity|].
    split; [now rewrite length_map, draw_length|].
    split; [|reflexivity].
    apply List.Forall_forall. intros c Hc. apply in_map_iff in Hc.
    destruct Hc as (b & <- & _). apply charsetAt_in.
Qed.

Lemma generateSecurePassword_spec_witness :
  (N.of_nat 16 <= 65536 ->
   exists password,
     generateSecurePassword 16 Toy.world0
     = (Some password, advance 16 Toy.world0)
     /\ length password = 16%nat
     /\ Forall (fun c => In c charset) password
     /\ password = map charsetAt (draw 16 Toy.world0))
  /\ (65536 < N.of_nat 16 ->
      generateSecurePassword 16 Toy.world0 = (None, Toy.world0))
  /\ localStorage (snd (generateSecurePassword 16 Toy.world0))
     = localStorage Toy.world0.
Proof.
  exact (generateSecurePassword_spec 16 Toy.world0).
Defined.

(** X22: the characters of a generated password are not equally likely:
    the charset has 70 distinct characters, and of the 256 byte values four
    select each of the first 46 characters and three each of the other
    24. *)
Theorem generateSecurePassword_bias (i : nat) :
  (i < 70)%nat ->
  length charset = 70%nat /\ List.NoDup charset
  /\ length (List.filter (fun b => charsetAt b =? nth i charset 0) allBytes)
     = if (i <? 46)%nat then 4%nat else 3%nat.
Proof.
  intros Hi. split; [reflexivity|]. split.
  - assert (Hd : forall l : list N,
              (fix nodup (l : list N) : bool :=
                 match l with
                 | [] => true
                 | x :: r => negb (existsb (N.eqb x) r) && nodup r
                 end) l = true -> List.NoDup l).
    { induction l as [|x r IH]; intros H; [constructor|].
      apply andb_true_iff in H. destruct H as [Hx Hr].
      constructor; [|now apply IH].
      intros Hin. apply negb_true_iff in Hx.
      assert (existsb (N.eqb x) r = true)
        by (apply existsb_exists; exists x; split;
            [exact Hin|apply N.eqb_refl]).
      congruence. }
    apply Hd. vm_compute. reflexivity.
  - assert (Hall : forallb
              (fun i => Nat.eqb
                 (length (List.filter
                            (fun b => charsetAt b =? nth i charset 0)
                            allBytes))
                 (if (i <? 46)%nat then 4%nat else 3%nat))
              (seq 0 70) = true) by (vm_compute; reflexivity).
    rewrite forallb_forall in Hall.
    apply Nat.eqb_eq, Hall, in_seq. lia.
Qed.

Lemma generateSecurePassword_bias_witness :
  (45 < 70)%nat
  /\ length charset = 70%nat /\ List.NoDup charset
  /\ length (List.filter (fun b => charsetAt b =? nth 45 charset 0) allBytes)
     = if (45 <? 46)%nat then 4%nat else 3%nat.
Proof.
  split; [lia|]. apply (generateSecurePassword_bias 45). lia.
Defined.

(** ** Loading and saving notes in the application *)

Section AppProperties.
Context {W : WebCrypto} {Eng : Engine}.

Lemma mapM_decrypt_state (l : list jsstring) (s : State) :
  snd (mapM decrypt l s) = s.
Proof.
  revert s. induction l as [|e l IH]; intros s; [reflexivity|].
  cbn [mapM]. unfold bind at 1.
  pose proof (decrypt_state e s) as Hd.
  destruct (decrypt e s) as [[d|err] s2]; cbn [snd] in *; subst;
    [|reflexivity].
  unfold bind at 1. pose proof (IH s) as Hm.
  destruct (mapM decrypt l s) as [[ds|err] s2]; cbn [snd] in *; now subst.
Qed.

(** [decryptNote] changes neither the manager nor the world. *)
Lemma decryptNote_state (n : Note) (s : State) : snd (decryptNote n s) = s.
Proof.
  unfold decryptNote. destruct (encrypted n) as [[|]|]; try reflexivity.
  unfold bind, ret.
  destruct (title n) as [[|c1 t1]|];
    try (pose proof (decrypt_state (c1 :: t1) s) as H1;
         destruct (decrypt (c1 :: t1) s) as [[d1|e1] s1];
         cbn [snd] in *; subst; [|reflexivity]);
    destruct (content n) as [[|c2 t2]|];
    try (pose proof (decrypt_state (c2 :: t2) s) as H2;
         destruct (decrypt (c2 :: t2) s) as [[d2|e2] s2];
         cbn [snd] in *; subst; [|reflexivity]);
    destruct (tags n) as [[|tg tgs]|]; try reflexivity;
    pose proof (mapM_decrypt_state (tg :: tgs) s) as H3;
    destruct (mapM decrypt (tg :: tgs) s) as [[ds|e3] s3];
    cbn [snd] in *; now subst.
Qed.


(** X23: loadNotes never throws and changes neither the manager nor
    localStorage: it returns, in the order of the store, the decryption of
    every note that decryptNote accepts and skips every note on which
    decryptNote throws, so one unreadable note does not hide the others. *)
Theorem loadNotes_spec (encryptedNotes : list Note) (s : State) :
  loadNotes encryptedNotes s
  = (Ok (flat_map (fun e => match fst (decryptNote e s) with
                            | Ok d => [d]
                            | Throw _ => []
                            end) encryptedNotes), s).
Proof.
  unfold loadNotes.
  enough (Hloop : forall notes,
            loadNotes_loop encryptedNotes notes s
            = (Ok (notes
                   ++ flat_map (fun e => match fst (decryptNote e s) with
                                         | Ok d => [d]
                                         | Throw _ => []
                                         end) encryptedNotes), s))
    by apply (Hloop []).
  induction encryptedNotes as [|e rest IH]; intros notes.
  - cbn [loadNotes_loop flat_map]. now rewrite app_nil_r.
  - cbn [loadNotes_loop flat_map]. unfold bind at 1, try_catch, bind, ret.
    pose proof (decryptNote_state e s) as Hs.
    destruct (decryptNote e s) as [[d|err] s2]; cbn [fst snd] in *; subst.
    + rewrite IH. now rewrite <- app_assoc.
    + now rewrite IH.
Qed.



(** X25: the note saveCurrentNote passes to the store never holds its
    title in the clear. The title of the editor, trimmed, or 'Untitled'
    when that is empty, is not empty; when title, content and tags are
    short enough for the engine a note is returned, otherwise 'Failed to
    encrypt data' is thrown and there is no note to store. In the note
    returned the title is replaced by its envelope, the id is kept,
    updatedAt is the new date, the encrypted flag is set and every tag of
    the editor has an entry. *)
Theorem saveCurrentNote_seals_title (this : CryptoManager) (w : World)
    (k : CryptoKey) (currentNote : Note)
    (titleInput contentInput tagsInput now : jsstring) :
  key this = Some k ->
  let allFit := fits (editorTitle titleInput) && fits contentInput
                && forallb fits (editorTags tagsInput) in
  editorTitle titleInput <> []
  /\ (allFit = true ->
      exists enc s',
        saveCurrentNote_encrypt currentNote titleInput contentInput tagsInput
          now (this, w) = (Ok enc, s'))
  /\ (allFit = false ->
      fst (saveCurrentNote_encrypt currentNote titleInput contentInput
             tagsInput now (this, w)) = Throw EncryptFailedError)
  /\ forall enc s',
       saveCurrentNote_encrypt currentNote titleInput contentInput tagsInput
         now (this, w) = (Ok enc, s') ->
       title enc = Some (envelope k (draw 12 w) (editorTitle titleInput))
       /\ id enc = id currentNote /\ updatedAt enc = now
       /\ encrypted enc = Some true
       /\ option_map (@length jsstring) (tags enc)
          = Some (length (editorTags tagsInput)).
Proof.
  intros Hk allFit.
  assert (Ht : exists c t, editorTitle titleInput = c :: t).
  { unfold editorTitle. destruct (trim titleInput) as [|c t]; [|eauto].
    vm_compute. eauto. }
  destruct Ht as (c & t & Et).
  split; [rewrite Et; discriminate|].
  assert (Hout : exists r s',
            saveCurrentNote_encrypt currentNote titleInput contentInput
              tagsInput now (this, w) = (r, s')
            /\ match r with
               | Ok enc =>
                   allFit = true
                   /\ title enc
                      = Some (envelope k (draw 12 w) (editorTitle titleInput))
                   /\ id enc = id currentNote /\ updatedAt enc = now
                   /\ encrypted enc = Some true
                   /\ option_map (@length jsstring) (tags enc)
                      = Some (length (editorTags tagsInput))
               | Throw e => allFit = false /\ e = EncryptFailedError
               end).
  { unfold allFit, saveCurrentNote_encrypt, encryptNote.
    cbn [title content tags encrypted id pinned archived createdAt updatedAt].
    rewrite Et.
    destruct contentInput as [|c2 t2];
      destruct (editorTags tagsInput) as [|tg tgs];
      rewrite ?fits_empty;
      unfold bind, ret, with_title, with_content, with_tags, with_encrypted;
      cbn [title content tags encrypted id pinned archived createdAt
           updatedAt];
      repeat (match goal with
              | |- context [encrypt ?d (?t, ?w0)] =>
                  rewrite (encrypt_run t w0 k d Hk);
                  destruct (fits d) eqn:?
              end;
              cbn [title content tags encrypted id pinned archived createdAt
                   updatedAt]);
      try match goal with
          | |- context [mapM encrypt ?l (?t, ?w0)] =>
              destruct (mapM_encrypt_run t k Hk l w0)
                as (r' & w' & Ees & _ & Hok & Hfail);
              rewrite Ees; clear Ees;
              destruct (forallb fits l) eqn:?;
              [destruct (Hok eq_refl) as (es & -> & Hlen)
              |rewrite (Hfail eq_refl)]
          end;
      cbn [title content tags encrypted id pinned archived createdAt
           updatedAt];
      do 2 eexists; (split; [reflexivity|]);
      cbn [title content tags encrypted id pinned archived createdAt
           updatedAt option_map andb forallb];
      repeat split; try reflexivity; try discriminate;
      try (f_equal; assumption). }
  destruct Hout as (r & s1 & Er & Hr). rewrite Er. cbn [fst].
  split; [|split].
  - intros Hf. destruct r as [enc|e]; [eauto|]. destruct Hr. congruence.
  - intros Hf. destruct r as [enc|e]; [|now rewrite (proj2 Hr)].
    destruct Hr. congruence.
  - intros enc s' [= -> _]. apply Hr.
Qed.

End AppProperties.


Lemma saveCurrentNote_seals_title_witness :
  key Toy.manager = Some [x2a]
  /\ editorTitle (js "   ") <> []
  /\ (fits (editorTitle (js "   ")) && fits (js "milk, eggs")
      && forallb fits (editorTags (js "home, ,food")) = true ->
      exists enc s',
        saveCurrentNote_encrypt (W := Toy.crypto) Samples.blankNote
          (js "   ") (js "milk, eggs") (js "home, ,food")
          (js "2024-02-02T00:00:00.000Z") (Toy.manager, Toy.world0)
        = (Ok enc, s'))
  /\ (fits (editorTitle (js "   ")) && fits (js "milk, eggs")
      && forallb fits (editorTags (js "home, ,food")) = false ->
      fst (saveCurrentNote_encrypt (W := Toy.crypto) Samples.blankNote
             (js "   ") (js "milk, eggs") (js "home, ,food")
             (js "2024-02-02T00:00:00.000Z") (Toy.manager, Toy.world0))
      = Throw EncryptFailedError)
  /\ forall enc s',
       saveCurrentNote_encrypt (W := Toy.crypto) Samples.blankNote
         (js "   ") (js "milk, eggs") (js "home, ,food")
         (js "2024-02-02T00:00:00.000Z") (Toy.manager, Toy.world0)
       = (Ok enc, s') ->
       title enc
       = Some (envelope (W := Toy.crypto) [x2a] (draw 12 Toy.world0)
                 (editorTitle (js "   ")))
       /\ id enc = id Samples.blankNote
       /\ updatedAt enc = js "2024-02-02T00:00:00.000Z"
       /\ encrypted enc = Some true
       /\ option_map (@length jsstring) (tags enc)
          = Some (length (editorTags (js "home, ,food"))).
Proof.
  split; [reflexivity|].
  apply (saveCurrentNote_seals_title (W := Toy.crypto) Toy.manager
           Toy.world0 [x2a] Samples.blankNote).
  reflexivity.
Defined.

(** ** The tags of the editor *)

Lemma trimStart_clean (s : jsstring) : startsClean (trimStart s).
Proof.
  induction s as [|c s IH]; [exact I|].
  cbn [trimStart]. destruct (isStrWhiteSpaceChar c) eqn:E; [exact IH|exact E].
Qed.

Lemma trimStart_of_clean (s : jsstring) : startsClean s -> trimStart s = s.
Proof.
  destruct s as [|c s]; [reflexivity|]. cbn [startsClean trimStart].
  now intros ->.
Qed.

Lemma trimStart_suffix (s : jsstring) : exists pre, s = pre ++ trimStart s.
Proof.
  induction s as [|c s [pre IH]]; [now exists []|].
  cbn [trimStart]. destruct (isStrWhiteSpaceChar c).
  - exists (c :: pre). cbn [app]. now rewrite <- IH.
  - now exists [].
Qed.

Lemma trim_in (s : jsstring) (x : N) : In x (trim s) -> In x s.
Proof.
  unfold trim. intros H. apply in_rev in H.
  destruct (trimStart_suffix (rev (trimStart s))) as [pre E].
  assert (In x (rev (trimStart s))) by (rewrite E; apply in_or_app; now right).
  apply in_rev in H0.
  destruct (trimStart_suffix s) as [pre' E'].
  rewrite E'. apply in_or_app. now right.
Qed.

(** A trimmed string has no white space at either end. *)
Lemma trim_trim (s : jsstring) : trim (trim s) = trim s.
Proof.
  unfold trim.
  set (A := trimStart s). set (B := trimStart (rev A)).
  assert (HA : startsClean A) by apply trimStart_clean.
  assert (HB : startsClean B) by apply trimStart_clean.
  assert (HrB : startsClean (rev B)).
  { destruct (trimStart_suffix (rev A)) as [pre E]. fold B in E.
    apply (f_equal (@rev N)) in E.
    rewrite rev_involutive, rev_app_distr in E.
    destruct (rev B) as [|c r]; [exact I|].
    rewrite E in HA. exact HA. }
  rewrite (trimStart_of_clean (rev B) HrB), rev_involutive.
  now rewrite (trimStart_of_clean B HB).
Qed.

Lemma split_comma_no_comma (s : jsstring) :
  Forall (fun piece => ~ In 44 piece) (split_comma s).
Proof.
  induction s as [|c s IH]; [repeat constructor; intros []|].
  cbn [split_comma]. destruct (N.eqb_spec c 44) as [->|Hc].
  - constructor; [intros []|exact IH].
  - destruct (split_comma s) as [|first others].
    + repeat constructor. intros [H|[]]. congruence.
    + inversion_clear IH as [|? ? Hf Ho]. constructor; [|exact Ho].
      intros [H|H]; [congruence|now apply Hf].
Qed.

(** X26: every tag saveCurrentNote reads from the tags input is
    non-empty, holds no comma and has no white space at its start or end;
    an empty input gives no tags. *)
Theorem editorTags_clean (tagsInput : jsstring) :
  Forall (fun tag => tag <> [] /\ ~ In 44 tag /\ trim tag = tag)
    (editorTags tagsInput)
  /\ (tagsInput = [] -> editorTags tagsInput = []).
Proof.
  split; [|intros ->; reflexivity].
  unfold editorTags. destruct tagsInput as [|c0 s0]; [constructor|].
  apply List.Forall_forall. intros tag Hin.
  apply List.filter_In in Hin. destruct Hin as [Hin Hne].
  apply in_map_iff in Hin. destruct Hin as (piece & <- & Hp).
  pose proof (split_comma_no_comma (c0 :: s0)) as Hc.
  rewrite List.Forall_forall in Hc. specialize (Hc piece Hp).
  split; [destruct (trim piece); [discriminate|discriminate]|].
  split; [intros H; apply Hc; now apply trim_in|apply trim_trim].
Qed.
